(** * compkey: a Map-like container with compound keys

    A shallow embedding of [src/lib/ckey.ts] and the properties its
    specification states about it.

    The embedding follows the TypeScript source function by function.
    JavaScript values are an inductive type; the objects a program can
    reach live in a heap addressed by locations, so that "the map itself"
    and "the key object" are things the theorems can talk about; the
    methods of [CMap] are computations in a small state-and-exception
    monad over that heap. *)

From Stdlib Require Import ZArith NArith String Ascii Lia.
From stdpp Require Import base decidable option list gmap strings sorting.

Local Open Scope string_scope.
Local Open Scope Z_scope.

(** ** Numbers

    A JavaScript number is an IEEE double.  The finite numbers
    represented here are the integers, [Finite z], with exact
    subtraction; the doubles with a fractional part are left out.  The
    code below observes of a difference its sign and whether it is zero,
    and on doubles a difference, though rounded, has the sign of the exact
    difference and is zero for equal operands only.  The three special
    doubles are kept: the source uses [Infinity] as a rank and subtracts
    ranks, and [NaN] and the infinities are numbers a caller may pass. *)

Inductive number : Type :=
| NaN
| NegInfinity
| Finite (z : Z)
| PosInfinity.

#[global] Instance number_eq_dec : EqDecision number.
Proof. solve_decision. Defined.

(** [a - b] on numbers. *)
Definition number_sub (a b : number) : number :=
  match a, b with
  | NaN, _ => NaN
  | _, NaN => NaN
  | Finite x, Finite y => Finite (x - y)
  | Finite _, PosInfinity => NegInfinity
  | Finite _, NegInfinity => PosInfinity
  | PosInfinity, PosInfinity => NaN
  | PosInfinity, _ => PosInfinity
  | NegInfinity, NegInfinity => NaN
  | NegInfinity, _ => NegInfinity
  end.

(** [n !== 0]: true for every number but zero, [NaN] included. *)
Definition number_neq_zero (n : number) : bool :=
  match n with
  | Finite 0 => false
  | _ => true
  end.

(** [n > 0]: false on [NaN]. *)
Definition number_gt_zero (n : number) : bool :=
  match n with
  | Finite z => 0 <? z
  | PosInfinity => true
  | _ => false
  end.

(** The sign of a number, when it has one: [NaN] is neither negative,
    zero nor positive. *)
Definition sign (n : number) : option comparison :=
  match n with
  | NaN => None
  | NegInfinity => Some Lt
  | Finite z => Some (z ?= 0)
  | PosInfinity => Some Gt
  end.

(** ** Values *)

Definition loc := nat.

(** A symbol has an identity and an optional description; two symbols
    made by two calls of [Symbol('s')] differ in identity only. *)
Record Symbol : Type := mkSymbol { sym_id : nat; description : option string }.

#[global] Instance Symbol_eq_dec : EqDecision Symbol.
Proof. solve_decision. Defined.

(** [Symbol.prototype.toString]. *)
Definition Symbol_toString (y : Symbol) : string :=
  "Symbol(" ++ default "" (description y) ++ ")".

Inductive JSValue : Type :=
| VUndefined
| VNull
| VBoolean (b : bool)
| VNumber (n : number)
| VString (s : string)
| VSymbol (y : Symbol)
| VObject (l : loc).

#[global] Instance JSValue_eq_dec : EqDecision JSValue.
Proof. solve_decision. Defined.

(** The [typeof] operator. *)
Definition typeof (a : JSValue) : string :=
  match a with
  | VUndefined => "undefined"
  | VNull => "object"
  | VBoolean _ => "boolean"
  | VNumber _ => "number"
  | VString _ => "string"
  | VSymbol _ => "symbol"
  | VObject _ => "object"
  end.

(** [export type Scalar = number | string | symbol | undefined | null]. *)
Definition isScalar (a : JSValue) : bool :=
  match a with
  | VUndefined | VNull | VNumber _ | VString _ | VSymbol _ => true
  | VBoolean _ | VObject _ => false
  end.

(** ** Completions: a call returns normally or throws *)

Inductive Completion (A : Type) : Type :=
| Normal (a : A)
| Throw (message : string).
Arguments Normal {A} a.
Arguments Throw {A} message.

#[global] Instance Completion_ret : MRet Completion := fun A a => Normal a.
#[global] Instance Completion_bind : MBind Completion := fun A B f c =>
  match c with
  | Normal a => f a
  | Throw e => Throw e
  end.

(** ** Scalar ranking and comparison *)

Inductive Rank : Type := UNDEFINED | NULL | NUMBER | STRING | SYMBOL | OTHER.

(** The numeric value of each member of [enum Rank]. *)
Definition Rank_value (r : Rank) : number :=
  match r with
  | UNDEFINED => Finite 0
  | NULL => Finite 10
  | NUMBER => Finite 20
  | STRING => Finite 30
  | SYMBOL => Finite 40
  | OTHER => PosInfinity
  end.

Definition rankScalarType (a : JSValue) : Rank :=
  match a with
  | VUndefined => UNDEFINED
  | VNull => NULL
  | _ =>
      if String.eqb (typeof a) "number" then NUMBER
      else if String.eqb (typeof a) "string" then STRING
      else if String.eqb (typeof a) "symbol" then SYMBOL
      else OTHER
  end.

(** The casts [a as number] and [a as string] are erased at run time; the
    operand has the type named whenever control reaches them. *)
Definition asNumber (a : JSValue) : number :=
  match a with VNumber n => n | _ => NaN end.
Definition asString (a : JSValue) : string :=
  match a with VString s => s | _ => "" end.

(** [a!.toString()], which the source calls on symbols only. *)
Definition toString (a : JSValue) : string :=
  match a with
  | VSymbol y => Symbol_toString y
  | VString s => s
  | _ => ""
  end.

(** [s < t] on strings: lexicographic on code units. *)
Definition string_lt (s t : string) : bool := String.ltb s t.

(** [s < t ? -1 : s > t ? +1 : 0]. *)
Definition compareStrings (s t : string) : number :=
  if string_lt s t then Finite (-1)
  else if string_lt t s then Finite 1
  else Finite 0.

(** The [switch] on [rank] has a [default] arm that throws an internal
    error; [Rank] has the six members above and no other, so the arm has
    no counterpart here. *)
Definition compareScalars (a b : JSValue) : Completion number :=
  let rank := rankScalarType a in
  let compareRanks := number_sub (Rank_value rank) (Rank_value (rankScalarType b)) in
  if number_neq_zero compareRanks then Normal compareRanks
  else
    match rank with
    | UNDEFINED | NULL => Normal (Finite 0)
    | NUMBER => Normal (number_sub (asNumber a) (asNumber b))
    | STRING => Normal (compareStrings (asString a) (asString b))
    | SYMBOL => Normal (compareStrings (toString a) (toString b))
    | OTHER => Throw "Non-scalar values"
    end.

(** ** Arrays: [Array.prototype.sort]

    The host sorts stably.  A comparator result of [NaN] counts as [+0].
    The algorithm is the host's own; a stable insertion sort stands for
    it here, which yields the same array whenever the comparator is a
    consistent one. *)

Section ArraySort.
Context {A : Type} (comparefn : A -> A -> Completion number).

Definition SortCompare (x y : A) : Completion number :=
  v ← comparefn x y;
  mret (match v with NaN => Finite 0 | _ => v end).

Fixpoint sortInsert (x : A) (sorted : list A) : Completion (list A) :=
  match sorted with
  | [] => mret [x]
  | y :: rest =>
      v ← SortCompare x y;
      if number_gt_zero v
      then (rest' ← sortInsert x rest; mret (y :: rest'))
      else mret (x :: y :: rest)
  end.

Fixpoint Array_sort (items : list A) : Completion (list A) :=
  match items with
  | [] => mret []
  | x :: rest => sorted ← Array_sort rest; sortInsert x sorted
  end.

End ArraySort.

(** ** Objects

    An object is the list of its own data properties in the order they
    were created.  Property names are strings or symbols; no name occurs
    twice in an object ([wfObject]).  Accessor properties, proxies and
    the prototype chain play no part in the keys this library is used
    with and are not represented. *)

Inductive PropertyKey : Type :=
| PString (s : string)
| PSymbol (y : Symbol).

#[global] Instance PropertyKey_eq_dec : EqDecision PropertyKey.
Proof. solve_decision. Defined.

Record Property : Type := mkProperty {
  prop_key : PropertyKey;
  prop_value : JSValue;
  enumerable : bool
}.

Definition JSObject := list Property.

Definition wfObject (obj : JSObject) : Prop := NoDup (prop_key <$> obj).

(** A property key is a string or a symbol value. *)
Definition keyValue (k : PropertyKey) : JSValue :=
  match k with
  | PString s => VString s
  | PSymbol y => VSymbol y
  end.

Definition isSymbolKey (k : PropertyKey) : bool :=
  match k with PSymbol _ => true | PString _ => false end.
Definition isStringKey (k : PropertyKey) : bool :=
  match k with PString _ => true | PSymbol _ => false end.

(** [Object.getOwnPropertyDescriptor(obj, key)]. *)
Definition getOwnPropertyDescriptor (obj : JSObject) (key : PropertyKey)
  : option Property :=
  List.find (fun p => bool_decide (prop_key p = key)) obj.

(** [obj[key]] on own data properties: [undefined] when there is none. *)
Definition getProp (obj : JSObject) (key : PropertyKey) : JSValue :=
  match getOwnPropertyDescriptor obj key with
  | Some p => prop_value p
  | None => VUndefined
  end.

(** Array indices: the canonical decimal numerals below [2^32 - 1].  The
    host lists own names that are array indices first, in ascending
    numeric order, whatever the order they were created in. *)
Definition digitValue (c : ascii) : option N :=
  let n := N_of_ascii c in
  if ((48 <=? n) && (n <=? 57))%N then Some (n - 48)%N else None.

Fixpoint parseDigits (acc : N) (s : string) : option N :=
  match s with
  | EmptyString => Some acc
  | String c rest =>
      match digitValue c with
      | Some d => parseDigits (acc * 10 + d)%N rest
      | None => None
      end
  end.

Definition arrayIndex (s : string) : option N :=
  match s with
  | EmptyString => None
  | String c rest =>
      if bool_decide (c = "0"%char) && negb (bool_decide (rest = EmptyString))
      then None
      else match parseDigits 0%N s with
           | Some n => if (n <? 4294967295)%N then Some n else None
           | None => None
           end
  end.

Definition isArrayIndex (k : PropertyKey) : bool :=
  match k with
  | PString s => bool_decide (is_Some (arrayIndex s))
  | PSymbol _ => false
  end.

Definition indexOf (k : PropertyKey) : N :=
  match k with
  | PString s => default 0%N (arrayIndex s)
  | PSymbol _ => 0%N
  end.

Fixpoint insertByIndex (k : PropertyKey) (sorted : list PropertyKey)
  : list PropertyKey :=
  match sorted with
  | [] => [k]
  | k' :: rest =>
      if (indexOf k <=? indexOf k')%N then k :: k' :: rest
      else k' :: insertByIndex k rest
  end.

Definition ascendingIndices (ks : list PropertyKey) : list PropertyKey :=
  foldr insertByIndex [] ks.

(** The names of an object in creation order. *)
Definition ownKeys (obj : JSObject) : list PropertyKey := prop_key <$> obj.

(** [Object.getOwnPropertyNames(obj)]: the string names, array indices
    first in ascending order, then the others in creation order. *)
Definition getOwnPropertyNames (obj : JSObject) : list PropertyKey :=
  let names := List.filter isStringKey (ownKeys obj) in
  ascendingIndices (List.filter isArrayIndex names)
    ++ List.filter (fun k => negb (isArrayIndex k)) names.

(** [Object.getOwnPropertySymbols(obj)]: the symbol names in creation
    order. *)
Definition getOwnPropertySymbols (obj : JSObject) : list PropertyKey :=
  List.filter isSymbolKey (ownKeys obj).

(** ** Key-sequence strategies *)

(** The generator [filterIt] yields the elements of [it] that satisfy
    [pred], in order.  A generator is consumed lazily by the loop that
    reads it; nothing changes the key between two reads, so the sequence
    it yields is represented by the list of its elements. *)
Definition filterIt {T : Type} (pred : T -> bool) (it : list T) : list T :=
  List.filter pred it.

(** The descriptor of an own key always exists, which is what the [!] of
    the source asserts. *)
Definition isEnumerable (obj : JSObject) (key : PropertyKey) : bool :=
  match getOwnPropertyDescriptor obj key with
  | Some p => if enumerable p then true else false
  | None => false
  end.

Definition asObjects (obj : JSObject) : list PropertyKey :=
  filterIt (isEnumerable obj) (getOwnPropertyNames obj)
    ++ filterIt (isEnumerable obj) (getOwnPropertySymbols obj).

Definition asValues (obj : JSObject) : Completion (list PropertyKey) :=
  Array_sort (fun a b => compareScalars (keyValue a) (keyValue b)) (asObjects obj).

(** A strategy: [(v: K) => KeySequence].  The specification requires a
    strategy to be deterministic and free of side effects; it is a
    function of the content of the key, which may throw. *)
Definition KeyGenerator := JSObject -> Completion (list PropertyKey).

Definition asObjectsGenerator : KeyGenerator := fun obj => Normal (asObjects obj).

(** ** The host's [Map]

    A [Map] keeps its entries in insertion order and finds a key by
    SameValueZero, which on the values above is equality.  No key occurs
    twice; [Map_set] overwrites the entry of a key in place and appends
    the entry of a new key. *)

Definition JSMap (K V : Type) : Type := list (K * V).

Section JSMap.
Context {K V : Type} `{EqDecision K}.

Fixpoint Map_get (map : JSMap K V) (k : K) : option V :=
  match map with
  | [] => None
  | (k', v) :: rest => if decide (k' = k) then Some v else Map_get rest k
  end.

Fixpoint Map_set (map : JSMap K V) (k : K) (v : V) : JSMap K V :=
  match map with
  | [] => [(k, v)]
  | (k', v') :: rest =>
      if decide (k' = k) then (k, v) :: rest else (k', v') :: Map_set rest k v
  end.

Definition Map_delete (map : JSMap K V) (k : K) : JSMap K V :=
  List.filter (fun e => negb (bool_decide (e.1 = k))) map.

(** [getOrMaybeAdd(map, a, makeEl)]: the element found ([map.has(a)],
    then [map.get(a)]) or made and added, and the map after the call. *)
Definition getOrMaybeAdd (map : JSMap K V) (a : K) (makeEl : unit -> V)
  : V * JSMap K V :=
  match Map_get map a with
  | Some el => (el, map)
  | None => let el := makeEl tt in (el, Map_set map a el)
  end.

End JSMap.

(** ** Trie nodes

    [interface Node<V>].  The value slot has the type
    [V | typeof notPresent]: it holds a stored value or the sentinel
    [notPresent], a symbol that the module keeps to itself and that is
    not one of the values of [V] (only the debugging hook [_internalDump],
    which hands out the root node, shows it).  The nodes of a map form a
    tree: each is referenced by the table of its parent alone, so the tree
    is represented by value, and a reference to one of its nodes by the
    path of steps that leads to it from the root. *)

Inductive Slot : Type :=
| notPresent
| Stored (v : JSValue).

#[global] Instance Slot_eq_dec : EqDecision Slot.
Proof. solve_decision. Defined.

#[local] Set Warnings "-register-all".
Inductive Node : Type :=
  mkNode {
    value : Slot;
    next : option (JSMap PropertyKey (JSMap JSValue Node))
  }.

(** [{ value: notPresent }]. *)
Definition newNode : Node := mkNode notPresent None.

(** One step of a walk: the key element and the value of the key on it. *)
Definition Step : Type := PropertyKey * JSValue.
Definition NodeRef : Type := list Step.

(** The steps a key takes along a key sequence: [keyElement] and
    [key[keyElement]] for each element yielded. *)
Definition stepsOf (key : JSObject) (keySeq : list PropertyKey) : list Step :=
  (fun keyElement => (keyElement, getProp key keyElement)) <$> keySeq.

(** [node.next?.get(keyElement)?.get(v)]. *)
Definition child (node : Node) (s : Step) : option Node :=
  nx ← next node; forKeyElement ← Map_get nx s.1; Map_get forKeyElement s.2.

(** The loop of [findNode]. *)
Fixpoint findNodeLoop (key : JSObject) (keySeq : list PropertyKey) (node : Node)
  : option Node :=
  match keySeq with
  | [] => Some node
  | keyElement :: rest =>
      match child node (keyElement, getProp key keyElement) with
      | None => None
      | Some node' => findNodeLoop key rest node'
      end
  end.

(** The loop of [makeNode], as the tree it leaves behind: the tables and
    nodes missing on the way are created, and the node reached is the one
    at the end of the steps. *)
Fixpoint makeNodeLoop (key : JSObject) (keySeq : list PropertyKey) (node : Node)
  : Node :=
  match keySeq with
  | [] => node
  | keyElement :: rest =>
      let nx := default [] (next node) in
      let '(forKeyElement, nx) := getOrMaybeAdd nx keyElement (fun _ => []) in
      let '(node', forKeyElement) :=
        getOrMaybeAdd forKeyElement (getProp key keyElement) (fun _ => newNode) in
      let node' := makeNodeLoop key rest node' in
      mkNode (value node)
        (Some (Map_set nx keyElement
                 (Map_set forKeyElement (getProp key keyElement) node')))
  end.

(** [node.value = v] for the node a reference leads to. *)
Fixpoint assignValue (ref : NodeRef) (v : Slot) (root : Node) : Node :=
  match ref with
  | [] => mkNode v (next root)
  | s :: rest =>
      match next root with
      | None => root
      | Some nx =>
          match Map_get nx s.1 with
          | None => root
          | Some forKeyElement =>
              match Map_get forKeyElement s.2 with
              | None => root
              | Some node' =>
                  mkNode (value root)
                    (Some (Map_set nx s.1
                             (Map_set forKeyElement s.2 (assignValue rest v node'))))
              end
          end
      end
  end.

(** The node at the end of a path of steps, and its value slot; a path
    that leads nowhere has no value. *)
Fixpoint walk (steps : list Step) (node : Node) : option Node :=
  match steps with
  | [] => Some node
  | s :: rest =>
      match child node s with
      | None => None
      | Some node' => walk rest node'
      end
  end.

Definition slotAt (steps : list Step) (root : Node) : Slot :=
  match walk steps root with
  | Some node => value node
  | None => notPresent
  end.

(** The node with its child along [s] replaced, and with it removed: the
    in-place updates of the two tables of a node, read back as a tree. *)
Definition setChild (node : Node) (s : Step) (c : Node) : Node :=
  let nx := default [] (next node) in
  let forKeyElement := default [] (Map_get nx s.1) in
  mkNode (value node) (Some (Map_set nx s.1 (Map_set forKeyElement s.2 c))).

Definition removeChild (node : Node) (s : Step) : Node :=
  let nx := default [] (next node) in
  let forKeyElement := default [] (Map_get nx s.1) in
  mkNode (value node) (Some (Map_set nx s.1 (Map_delete forKeyElement s.2))).

(** ** The heap and the monad of methods *)

(** [class CMap]: its two fields. *)
Record CMapState : Type := mkCMap {
  keyGenerator : KeyGenerator;
  values : Node
}.

Inductive Cell : Type :=
| ObjectCell (obj : JSObject)
| CMapCell (m : CMapState).

Abbreviation Heap := (gmap loc Cell).

Definition M (A : Type) : Type := Heap -> Completion A * Heap.

#[global] Instance M_ret : MRet M := fun A a h => (Normal a, h).
#[global] Instance M_bind : MBind M := fun A B f c h =>
  match c h with
  | (Normal a, h') => f a h'
  | (Throw e, h') => (Throw e, h')
  end.

Definition liftCompletion {A : Type} (c : Completion A) : M A := fun h => (c, h).

(** Reading [this] and the key.  The methods are typed: [this] is a
    [CMap] and the key an object; a location that holds something else
    makes the read throw, and nothing is written. *)
Definition readObject (l : loc) : M JSObject := fun h =>
  match h !! l with
  | Some (ObjectCell obj) => (Normal obj, h)
  | _ => (Throw "TypeError: not a key object", h)
  end.

Definition readCMap (l : loc) : M CMapState := fun h =>
  match h !! l with
  | Some (CMapCell m) => (Normal m, h)
  | _ => (Throw "TypeError: not a CMap", h)
  end.

Definition writeValues (l : loc) (root : Node) : M unit := fun h =>
  match h !! l with
  | Some (CMapCell m) =>
      (Normal tt, <[l := CMapCell (mkCMap (keyGenerator m) root)]> h)
  | _ => (Throw "TypeError: not a CMap", h)
  end.

Module CMap.

(** [new CMap(keyGenerator = asValues)]. *)
Definition new (generator : option KeyGenerator) : M loc := fun h =>
  let this := fresh (dom h) in
  (Normal this, <[this := CMapCell (mkCMap (default asValues generator) newNode)]> h).

Definition findNode (this key : loc) : M (option Node) :=
  m ← readCMap this;
  obj ← readObject key;
  keySeq ← liftCompletion (keyGenerator m obj);
  mret (findNodeLoop obj keySeq (values m)).

Definition makeNode (this key : loc) : M NodeRef :=
  m ← readCMap this;
  obj ← readObject key;
  keySeq ← liftCompletion (keyGenerator m obj);
  _ ← writeValues this (makeNodeLoop obj keySeq (values m));
  mret (stepsOf obj keySeq).

Definition get (this key : loc) : M JSValue :=
  node ← findNode this key;
  match node with
  | None => mret VUndefined
  | Some node =>
      match value node with
      | notPresent => mret VUndefined
      | Stored v => mret v
      end
  end.

Definition set (this key : loc) (v : JSValue) : M loc :=
  node ← makeNode this key;
  m ← readCMap this;
  _ ← writeValues this (assignValue node (Stored v) (values m));
  mret this.

End CMap.

(** ** The parts of the container that are not under [src/]

    The tests exercise [size], [has] and [delete]; the class as it stands
    under [src/lib/ckey.ts] has [get] and [set] only.  The missing methods
    are modelled from section 4.4 of the specification, over the trie and
    the walk primitives of the source. *)

Module SpecCMap.

(** Modelled from the spec: the Compound Map with its size counter, which
    the class under [src/] lacks: "owns the root Trie Node and a configured
    Key-Sequence Strategy; derives size incrementally". *)
Record t : Type := mk {
  keyGenerator : KeyGenerator;
  values : Node;
  size : Z
}.

(** Modelled from the spec: the map as constructed (and as [clear] leaves
    it), missing from [src/] with its counter: "a fresh empty node and
    size to zero". *)
Definition empty (generator : KeyGenerator) : t := mk generator newNode 0.

(** Modelled from the spec: [get] over the state with a counter (the
    source's [get] is [CMap.get]): "Find(key); absent if no terminal node
    or its value slot is absent; otherwise its value". *)
Definition get (m : t) (key : JSObject) : Completion JSValue :=
  keySeq ← keyGenerator m key;
  mret (match findNodeLoop key keySeq (values m) with
        | None => VUndefined
        | Some node =>
            match value node with
            | notPresent => VUndefined
            | Stored v => v
            end
        end).

(** Modelled from the spec: [has], missing from [src/]: "true iff get
    would return a present value". *)
Definition has (m : t) (key : JSObject) : Completion bool :=
  keySeq ← keyGenerator m key;
  mret (match findNodeLoop key keySeq (values m) with
        | None => false
        | Some node =>
            match value node with
            | notPresent => false
            | Stored _ => true
            end
        end).

(** Modelled from the spec: [set] with the size counter, missing from
    [src/] (whose [set] keeps no count): "Ensure(key); if the terminal's
    value slot was absent, increment size; overwrite the slot with
    value". *)
Definition set (m : t) (key : JSObject) (v : JSValue) : Completion t :=
  keySeq ← keyGenerator m key;
  let root := makeNodeLoop key keySeq (values m) in
  let node := stepsOf key keySeq in
  let size' :=
    match slotAt node root with
    | notPresent => size m + 1
    | Stored _ => size m
    end in
  mret (mk (keyGenerator m) (assignValue node (Stored v) root) size').

(** Modelled from the spec: the test for a node to prune, missing from
    [src/]: a "child node [that] has both an absent value slot and an
    empty/absent branch table".  A branch table is empty when it holds no
    (selector, value) entry. *)
Definition hasChildren (node : Node) : bool :=
  match next node with
  | None => false
  | Some nx =>
      existsb (fun e : PropertyKey * JSMap JSValue Node =>
                 match e.2 with [] => false | _ :: _ => true end) nx
  end.

(** Modelled from the spec: dead weight, for the pruning that [src/]
    lacks: "a node with branch table == none and value == absent is dead
    weight and must be pruned". *)
Definition isDead (node : Node) : bool :=
  bool_decide (value node = notPresent) && negb (hasChildren node).

(** Modelled from the spec: the pruning walk of [delete], missing from
    [src/]: "walk back up the path taken and prune: remove any
    (selector,value) branch-table entry whose child node has both an
    absent value slot and an empty/absent branch table, repeating upward
    until a node with remaining content is reached or the root is hit".
    The recursion returns from the terminal node upward; a child that
    keeps content is stored back unchanged, and so are its ancestors. *)
Fixpoint prune (steps : list Step) (node : Node) : Node :=
  match steps with
  | [] => node
  | s :: rest =>
      match child node s with
      | None => node
      | Some c =>
          let c' := prune rest c in
          if isDead c' then removeChild node s else setChild node s c'
      end
  end.

(** Modelled from the spec: [delete], missing from [src/]: "Find(key)
    without creating; if no node or the value slot is already absent,
    return false (no-op).  Otherwise clear the value slot to absent,
    decrement size, then walk back up the path taken and prune.  Returns
    true". *)
Definition delete (m : t) (key : JSObject) : Completion (bool * t) :=
  keySeq ← keyGenerator m key;
  match findNodeLoop key keySeq (values m) with
  | None => mret (false, m)
  | Some node =>
      match value node with
      | notPresent => mret (false, m)
      | Stored _ =>
          let ref := stepsOf key keySeq in
          let root := assignValue ref notPresent (values m) in
          mret (true, mk (keyGenerator m) (prune ref root) (size m - 1))
      end
  end.

(** Sequences of operations.  An operation that throws leaves the map as
    it was, the strategy being called before any node is touched. *)
Inductive Op : Type :=
| OpSet (key : JSObject) (v : JSValue)
| OpDelete (key : JSObject).

Definition apply (m : t) (op : Op) : t :=
  match op with
  | OpSet key v =>
      match set m key v with
      | Normal m' => m'
      | Throw _ => m
      end
  | OpDelete key =>
      match delete m key with
      | Normal (_, m') => m'
      | Throw _ => m
      end
  end.

Definition run (ops : list Op) (m : t) : t := foldl apply m ops.

(** The linearized keys of the [set] calls of a sequence. *)
Fixpoint keysSet (generator : KeyGenerator) (ops : list Op) : list (list Step) :=
  match ops with
  | [] => []
  | OpSet key _ :: rest =>
      match generator key with
      | Normal keySeq => stepsOf key keySeq :: keysSet generator rest
      | Throw _ => keysSet generator rest
      end
  | OpDelete _ :: rest => keysSet generator rest
  end.

(** No node below the root is dead weight. *)
Inductive Pruned : Node -> Prop :=
| Pruned_node (node : Node) :
    (forall s c, child node s = Some c -> isDead c = false /\ Pruned c) ->
    Pruned node.

End SpecCMap.

(** ** Vocabulary of the statements *)

(** The (selector, value) pairs of the enumerable fields of a key. *)
Definition entries (obj : JSObject) : list (PropertyKey * JSValue) :=
  (fun p => (prop_key p, prop_value p)) <$> List.filter enumerable obj.

Definition enumerableKeys (obj : JSObject) : list PropertyKey :=
  prop_key <$> List.filter enumerable obj.

(** Two keys hold the same (selector, value) pairs, as sets. *)
Definition sameEntries (k1 k2 : JSObject) : Prop :=
  forall e, e ∈ entries k1 <-> e ∈ entries k2.

(** No two distinct symbol selectors of a key print alike. *)
Definition distinctRenderings (obj : JSObject) : Prop :=
  forall y1 y2,
    PSymbol y1 ∈ enumerableKeys obj -> PSymbol y2 ∈ enumerableKeys obj ->
    Symbol_toString y1 = Symbol_toString y2 -> y1 = y2.

(** A scalar whose number, if it is one, is finite. *)
Definition finiteScalar (a : JSValue) : bool :=
  match a with
  | VUndefined | VNull | VString _ | VSymbol _ => true
  | VNumber (Finite _) => true
  | _ => false
  end.

(** The outcome of a comparison as less, equal or greater, when the
    comparator returns a number that has a sign. *)
Definition compareSign (a b : JSValue) : option comparison :=
  match compareScalars a b with
  | Normal n => sign n
  | Throw _ => None
  end.

(** The orders the comparator induces. *)
Definition scalarLt (a b : JSValue) : Prop := compareSign a b = Some Lt.
Definition scalarLe (a b : JSValue) : Prop :=
  compareSign a b = Some Lt \/ compareSign a b = Some Eq.

(** The rank classes in the documented order. *)
Definition rankBelow (r1 r2 : Rank) : Prop :=
  match r1, r2 with
  | UNDEFINED, (NULL | NUMBER | STRING | SYMBOL) => True
  | NULL, (NUMBER | STRING | SYMBOL) => True
  | NUMBER, (STRING | SYMBOL) => True
  | STRING, SYMBOL => True
  | _, _ => False
  end.

(** What [get] returns for a value slot. *)
Definition slotValue (s : Slot) : JSValue :=
  match s with
  | notPresent => VUndefined
  | Stored v => v
  end.

(** The state of a map after [set]: the root with the nodes of the key
    made and the value stored at its end. *)
Definition rootAfterSet (key : JSObject) (keySeq : list PropertyKey) (v : JSValue)
  (root : Node) : Node :=
  assignValue (stepsOf key keySeq) (Stored v) (makeNodeLoop key keySeq root).

(** A string selector that is not an array index. *)
Definition isPlainName (k : PropertyKey) : bool :=
  isStringKey k && negb (isArrayIndex k).

(** Ascending order of array indices. *)
Definition indexLe (k k' : PropertyKey) : Prop := (indexOf k <= indexOf k')%N.

(** The comparator of the sorted strategy, and the weak order it
    induces on selectors. *)
Definition compareSelectors (a b : PropertyKey) : Completion number :=
  compareScalars (keyValue a) (keyValue b).
Definition selectorLe (a b : PropertyKey) : Prop :=
  scalarLe (keyValue a) (keyValue b).

(** The invariant of the size counter: the counter of [m] is the length
    of a duplicate-free list [L] of the paths that hold a value, all of
    which were set by one of the calls recorded in [S]. *)
Definition Counted (g : KeyGenerator) (S : list (list Step)) (m : SpecCMap.t)
  : Prop :=
  SpecCMap.keyGenerator m = g
  /\ exists L : list (list Step),
       NoDup L
       /\ (forall p, p ∈ L <-> slotAt p (SpecCMap.values m) <> notPresent)
       /\ SpecCMap.size m = Z.of_nat (length L)
       /\ (forall p, p ∈ L -> p ∈ S).

(** An object literal with enumerable fields, in the order written. *)
Definition literal (fields : list (PropertyKey * JSValue)) : JSObject :=
  (fun f => mkProperty f.1 f.2 true) <$> fields.

Definition num (z : Z) : JSValue := VNumber (Finite z).

(** The keys of the tests, two symbols that print alike, and a heap that
    holds a new map with the default strategy at location 0 and keys at
    the locations after it. *)
Definition key_a1b2 : JSObject := literal [(PString "a", num 1); (PString "b", num 2)].
Definition key_b2a1 : JSObject := literal [(PString "b", num 2); (PString "a", num 1)].
Definition key_a1b3 : JSObject := literal [(PString "a", num 1); (PString "b", num 3)].
Definition key_a1 : JSObject := literal [(PString "a", num 1)].

Definition symbol_s : Symbol := mkSymbol 1 (Some "s").
Definition symbol_s' : Symbol := mkSymbol 2 (Some "s").
Definition key_ss' : JSObject :=
  literal [(PSymbol symbol_s, num 1); (PSymbol symbol_s', num 2)].
Definition key_s's : JSObject :=
  literal [(PSymbol symbol_s', num 2); (PSymbol symbol_s, num 1)].

Definition key_b_0 : JSObject := literal [(PString "b", num 1); (PString "0", num 2)].

(** The objects of the test suite ([src/test/ckey.spec.ts]). *)
Definition symbol_t : Symbol := mkSymbol 3 (Some "s").
Definition test_obj : JSObject :=
  literal [(PString "a", num 1); (PString "z", VObject 100%nat); (PString "c", num 3)].
Definition test_obj_s_d : JSObject :=
  literal [(PString "a", num 1); (PString "z", VObject 100%nat); (PString "c", num 3);
           (PSymbol symbol_t, VString "symbol"); (PString "d", num 4)].
Definition test_obj_s : JSObject :=
  literal [(PString "a", num 1); (PString "z", VObject 100%nat); (PString "c", num 3);
           (PSymbol symbol_t, VString "symbol")].
Definition key_a2b1 : JSObject := literal [(PString "a", num 2); (PString "b", num 1)].
Definition key_a1b1 : JSObject := literal [(PString "a", num 1); (PString "b", num 1)].
Definition key_a2b9 : JSObject := literal [(PString "a", num 2); (PString "b", num 9)].
Definition key_a1b2c3 : JSObject :=
  literal [(PString "a", num 1); (PString "b", num 2); (PString "c", num 3)].
Definition key_s0a1b2 : JSObject :=
  literal [(PSymbol symbol_t, num 0); (PString "a", num 1); (PString "b", num 2)].
Definition key_s1a1b2 : JSObject :=
  literal [(PSymbol symbol_t, num 1); (PString "a", num 1); (PString "b", num 2)].
Definition key_a1b2s1 : JSObject :=
  literal [(PString "a", num 1); (PString "b", num 2); (PSymbol symbol_t, num 1)].
Definition key_a1s0b2 : JSObject :=
  literal [(PString "a", num 1); (PSymbol symbol_t, num 0); (PString "b", num 2)].

(** A heap for the tests: the keys at fixed locations, a map with the
    default strategy at 0 and one with the insertion-order strategy
    at 50. *)
Definition testHeap : Heap :=
  list_to_map
    [(0%nat, CMapCell (mkCMap asValues newNode));
     (50%nat, CMapCell (mkCMap asObjectsGenerator newNode));
     (1%nat, ObjectCell key_a1b2);
     (2%nat, ObjectCell key_b2a1);
     (3%nat, ObjectCell key_a1b3);
     (4%nat, ObjectCell key_a1);
     (7%nat, ObjectCell key_a2b1);
     (8%nat, ObjectCell key_a1b1);
     (9%nat, ObjectCell key_a2b9);
     (10%nat, ObjectCell key_a1b2c3);
     (11%nat, ObjectCell key_s0a1b2);
     (12%nat, ObjectCell key_s1a1b2);
     (13%nat, ObjectCell key_a1b2s1);
     (14%nat, ObjectCell key_a1s0b2)].

Definition exampleHeap : Heap :=
  {[ 0%nat := CMapCell (mkCMap asValues newNode);
     1%nat := ObjectCell key_a1b2;
     2%nat := ObjectCell key_b2a1;
     3%nat := ObjectCell key_a1b3;
     4%nat := ObjectCell key_a1;
     5%nat := ObjectCell key_ss';
     6%nat := ObjectCell key_s's ]}.

(** ** Vocabulary of the further properties *)

(** A number that is not finite: [NaN] or an infinity. *)
Definition nonFinite (n : number) : bool :=
  match n with
  | Finite _ => false
  | _ => true
  end.

(** The order of the sorted strategy, spelled out: a string selector
    comes before a symbol selector, two strings are in lexicographic
    order, two symbols in the lexicographic order of their printed
    forms. *)
Definition keyBefore (a b : PropertyKey) : Prop :=
  match a, b with
  | PString s, PString t => String.compare s t <> Gt
  | PString _, PSymbol _ => True
  | PSymbol _, PString _ => False
  | PSymbol y, PSymbol z =>
      String.compare (Symbol_toString y) (Symbol_toString z) <> Gt
  end.

(** The loop of the tests, [for (const [k, v] of kvs) map.set(k, v)]. *)
Fixpoint setEach (this : loc) (kvs : list (loc * JSValue)) : M unit :=
  match kvs with
  | [] => mret tt
  | (k, v) :: rest => _ ← CMap.set this k v; setEach this rest
  end.

(** The value written last to a path by a list of writes, the head of
    the list being the first write. *)
Fixpoint lastWrite (writes : list (list Step * JSValue)) (p : list Step)
  : option JSValue :=
  match writes with
  | [] => None
  | (q, v) :: rest =>
      match lastWrite rest p with
      | Some v' => Some v'
      | None => if decide (q = p) then Some v else None
      end
  end.

(** A write of the tests' loop with what it refers to: the location of
    the key, the key found there, the sequence the strategy yields for it
    and the value. *)
Record Write : Type := mkWrite {
  write_loc : loc;
  write_key : JSObject;
  write_seq : list PropertyKey;
  write_value : JSValue
}.

Definition writeArgs (w : Write) : loc * JSValue := (write_loc w, write_value w).
Definition writePath (w : Write) : list Step * JSValue :=
  (stepsOf (write_key w) (write_seq w), write_value w).

(** * Properties *)

(** ** The tests of the repository, run on the embedding *)

(** 'asObjects returns keys in insertion order, strings before symbols'. *)
Example test_asObjects :
  asObjects test_obj = [PString "a"; PString "z"; PString "c"]
  /\ asObjects test_obj_s_d
     = [PString "a"; PString "z"; PString "c"; PString "d"; PSymbol symbol_t].
Proof. split; reflexivity. Qed.

(** 'asValues returns keys in fixed (sorted) order'. *)
Example test_asValues :
  asValues test_obj = Normal [PString "a"; PString "c"; PString "z"]
  /\ asValues test_obj_s
     = Normal [PString "a"; PString "c"; PString "z"; PSymbol symbol_t].
Proof. split; reflexivity. Qed.

(** 'CMap.get with deep-equal keys'. *)
Example test_get_deep_equal :
  ((_ ← CMap.set 0%nat 1%nat (num 12);
    _ ← CMap.set 0%nat 7%nat (num 21);
    _ ← CMap.set 0%nat 8%nat (num 11);
    r1 ← CMap.get 0%nat 1%nat;
    r2 ← CMap.get 0%nat 2%nat;
    r3 ← CMap.get 0%nat 7%nat;
    r4 ← CMap.get 0%nat 9%nat;
    r5 ← CMap.get 0%nat 10%nat;
    r6 ← CMap.get 0%nat 4%nat;
    mret [r1; r2; r3; r4; r5; r6]) testHeap).1
  = Normal [num 12; num 12; num 21; VUndefined; VUndefined; VUndefined].
Proof. reflexivity. Qed.

(** 'CMap.get with deep-equal keys and symbols'. *)
Example test_get_symbols :
  ((_ ← CMap.set 0%nat 11%nat (num 1);
    _ ← CMap.set 0%nat 12%nat (num 2);
    r1 ← CMap.get 0%nat 13%nat;
    r2 ← CMap.get 0%nat 14%nat;
    mret [r1; r2]) testHeap).1
  = Normal [num 2; num 1].
Proof. reflexivity. Qed.

(** 'CMap.get with insertion-order keys'. *)
Example test_get_insertion_order :
  ((_ ← CMap.set 50%nat 1%nat (num 12);
    _ ← CMap.set 50%nat 2%nat (VString "12");
    _ ← CMap.set 50%nat 3%nat (num 13);
    _ ← CMap.set 50%nat 4%nat (num 1);
    r1 ← CMap.get 50%nat 1%nat;
    r2 ← CMap.get 50%nat 2%nat;
    r3 ← CMap.get 50%nat 3%nat;
    r4 ← CMap.get 50%nat 4%nat;
    mret [r1; r2; r3; r4]) testHeap).1
  = Normal [num 12; VString "12"; num 13; num 1].
Proof. reflexivity. Qed.

(** A map made by [new CMap()] uses the sorted strategy. *)
Example test_new :
  ((m ← CMap.new None;
    _ ← CMap.set m 1%nat (num 12);
    CMap.get m 2%nat) testHeap).1 = Normal (num 12).
Proof. reflexivity. Qed.

(** 'CMap.set overwrites existing elements'. *)
Example test_set_overwrites :
  ((_ ← CMap.set 0%nat 1%nat (num 1);
    _ ← CMap.set 0%nat 1%nat (num 11);
    CMap.get 0%nat 1%nat) testHeap).1 = Normal (num 11).
Proof. reflexivity. Qed.

(** 'CMap.delete removes leaf elements', on the model of [delete]. *)
Example test_delete_leaf :
  let m := SpecCMap.run [SpecCMap.OpSet key_a1b2 (num 1);
                         SpecCMap.OpSet key_a1b3 (num 11)]
             (SpecCMap.empty asValues) in
  exists m', SpecCMap.delete m key_b2a1 = Normal (true, m')
             /\ SpecCMap.size m' = 1
             /\ SpecCMap.get m' key_a1b2 = Normal VUndefined
             /\ SpecCMap.get m' key_a1b3 = Normal (num 11).
Proof. eexists. repeat split; reflexivity. Qed.

(** 'CMap.delete removes internal elements'. *)
Example test_delete_internal :
  let m := SpecCMap.run [SpecCMap.OpSet key_a1b2 (num 1);
                         SpecCMap.OpSet key_a1b3 (num 11);
                         SpecCMap.OpSet key_a1 (num 9)]
             (SpecCMap.empty asValues) in
  exists m', SpecCMap.delete m key_a1 = Normal (true, m')
             /\ SpecCMap.size m' = 2
             /\ SpecCMap.get m' key_a1 = Normal VUndefined
             /\ SpecCMap.get m' key_a1b2 = Normal (num 1)
             /\ SpecCMap.get m' key_a1b3 = Normal (num 11).
Proof. eexists. repeat split; reflexivity. Qed.

(** 'CMap.size counts new set keys'. *)
Example test_size :
  SpecCMap.size (SpecCMap.empty asValues) = 0
  /\ SpecCMap.size (SpecCMap.run [SpecCMap.OpSet key_a1b2 (num 1)]
                      (SpecCMap.empty asValues)) = 1
  /\ SpecCMap.size (SpecCMap.run [SpecCMap.OpSet key_a1b2 (num 1);
                                  SpecCMap.OpSet key_a2b1 (num 2)]
                      (SpecCMap.empty asValues)) = 2
  /\ SpecCMap.size (SpecCMap.run [SpecCMap.OpSet key_a1b2 (num 1);
                                  SpecCMap.OpSet key_a2b1 (num 2);
                                  SpecCMap.OpSet key_a1b2 (num 3)]
                      (SpecCMap.empty asValues)) = 2.
Proof. repeat split; reflexivity. Qed.

(** ** Numbers and strings *)

Lemma ascii_compare_trans (a b c : ascii) :
  Ascii.compare a b = Lt -> Ascii.compare b c = Lt -> Ascii.compare a c = Lt.
Proof.
  unfold Ascii.compare. rewrite !N.compare_lt_iff. lia.
Qed.

Lemma string_compare_refl (s : string) : String.compare s s = Eq.
Proof.
  induction s as [|c s IH]; simpl; [done|].
  unfold Ascii.compare. by rewrite N.compare_refl.
Qed.

Lemma string_compare_lt_trans (s t u : string) :
  String.compare s t = Lt -> String.compare t u = Lt -> String.compare s u = Lt.
Proof.
  revert t u. induction s as [|a s IH]; intros [|b t] [|c u]; simpl; try done.
  destruct (Ascii.compare a b) eqn:Hab; try done.
  - apply Ascii.compare_eq_iff in Hab as ->.
    destruct (Ascii.compare b c); try done. apply IH.
  - destruct (Ascii.compare b c) eqn:Hbc; try done.
    + apply Ascii.compare_eq_iff in Hbc as <-. by rewrite Hab.
    + by rewrite (ascii_compare_trans _ _ _ Hab Hbc).
Qed.

Lemma string_compare_eq (s t : string) : String.compare s t = Eq <-> s = t.
Proof.
  split; [apply String.compare_eq_iff|intros ->; apply string_compare_refl].
Qed.

Lemma sign_compareStrings (s t : string) :
  sign (compareStrings s t) = Some (String.compare s t).
Proof.
  unfold compareStrings, string_lt, String.ltb.
  rewrite (String.compare_antisym t s).
  by destruct (String.compare s t).
Qed.

Lemma sign_sub_finite (x y : Z) :
  sign (number_sub (Finite x) (Finite y)) = Some (x ?= y).
Proof.
  cbn [sign number_sub]. f_equal.
  destruct (Z.compare_spec x y), (Z.compare_spec (x - y) 0); lia || done.
Qed.

(** ** The comparator *)

(** What the comparator returns, class by class. *)
Lemma compareScalars_numbers (x y : number) :
  compareScalars (VNumber x) (VNumber y) = Normal (number_sub x y).
Proof. reflexivity. Qed.

Lemma compareScalars_strings (s t : string) :
  compareScalars (VString s) (VString t) = Normal (compareStrings s t).
Proof. reflexivity. Qed.

Lemma compareScalars_symbols (y z : Symbol) :
  compareScalars (VSymbol y) (VSymbol z)
  = Normal (compareStrings (Symbol_toString y) (Symbol_toString z)).
Proof. reflexivity. Qed.

(** The [throw] of the [OTHER] arm is dead code: the difference of two
    ranks is zero only for two equal finite ranks, and [OTHER] is
    [Infinity]. *)
Lemma compareScalars_never_throws (a b : JSValue) :
  exists n, compareScalars a b = Normal n.
Proof. destruct a, b; eexists; reflexivity. Qed.

Lemma compareSign_numbers (x y : Z) :
  compareSign (num x) (num y) = Some (x ?= y).
Proof. unfold compareSign, num. rewrite compareScalars_numbers. apply sign_sub_finite. Qed.

Lemma compareSign_strings (s t : string) :
  compareSign (VString s) (VString t) = Some (String.compare s t).
Proof. unfold compareSign. rewrite compareScalars_strings. apply sign_compareStrings. Qed.

Lemma compareSign_symbols (y z : Symbol) :
  compareSign (VSymbol y) (VSymbol z)
  = Some (String.compare (Symbol_toString y) (Symbol_toString z)).
Proof. unfold compareSign. rewrite compareScalars_symbols. apply sign_compareStrings. Qed.

Lemma compareSign_antisym (a b : JSValue) :
  finiteScalar a -> finiteScalar b ->
  exists s, compareSign a b = Some s /\ compareSign b a = Some (CompOpp s).
Proof.
  destruct a as [| | |[]| | |], b as [| | |[]| | |]; simpl; try done; intros _ _;
    try (eexists; split; reflexivity).
  - change (VNumber (Finite ?x)) with (num x). rewrite !compareSign_numbers.
    eexists; split; [done|]. by rewrite Z.compare_antisym.
  - rewrite !compareSign_strings. eexists; split; [done|].
    by rewrite String.compare_antisym.
  - rewrite !compareSign_symbols. eexists; split; [done|].
    by rewrite String.compare_antisym.
Qed.

Lemma compareSign_VNumber (x y : number) :
  compareSign (VNumber x) (VNumber y) = sign (number_sub x y).
Proof. reflexivity. Qed.

Lemma number_lt_trans (x y z : number) :
  sign (number_sub x y) = Some Lt -> sign (number_sub y z) = Some Lt ->
  sign (number_sub x z) = Some Lt.
Proof.
  destruct x, y, z; cbn [sign number_sub]; try done.
  intros [= H1] [= H2]. f_equal.
  rewrite Z.compare_lt_iff in H1, H2 |- *. lia.
Qed.

Lemma number_le_trans (x y z : number) :
  sign (number_sub x y) = Some Lt \/ sign (number_sub x y) = Some Eq ->
  sign (number_sub y z) = Some Lt \/ sign (number_sub y z) = Some Eq ->
  sign (number_sub x z) = Some Lt \/ sign (number_sub x z) = Some Eq.
Proof.
  destruct x as [| |p|], y as [| |q|], z as [| |r|];
    cbn [sign number_sub]; try (intuition congruence).
  intros H1 H2.
  assert (p - q <= 0) as H1'.
  { destruct H1 as [[= H]|[= H]];
      [rewrite Z.compare_lt_iff in H|rewrite Z.compare_eq_iff in H]; lia. }
  assert (q - r <= 0) as H2'.
  { destruct H2 as [[= H]|[= H]];
      [rewrite Z.compare_lt_iff in H|rewrite Z.compare_eq_iff in H]; lia. }
  destruct (Z.compare_spec (p - r) 0); [by right|by left|lia].
Qed.

Lemma string_compare_le_trans (s t u : string) :
  String.compare s t = Lt \/ String.compare s t = Eq ->
  String.compare t u = Lt \/ String.compare t u = Eq ->
  String.compare s u = Lt \/ String.compare s u = Eq.
Proof.
  intros [H1|H1] [H2|H2].
  - left. exact (string_compare_lt_trans _ _ _ H1 H2).
  - apply string_compare_eq in H2 as <-. by left.
  - apply string_compare_eq in H1 as ->. by left.
  - apply string_compare_eq in H1 as ->. by right.
Qed.

Ltac scalar_cases a b c :=
  destruct a, b, c; try done; intros _ _ _;
  rewrite ?compareSign_VNumber, ?compareSign_strings, ?compareSign_symbols.

Lemma scalarLt_trans (a b c : JSValue) :
  isScalar a -> isScalar b -> isScalar c ->
  scalarLt a b -> scalarLt b c -> scalarLt a c.
Proof.
  unfold scalarLt. scalar_cases a b c; try (by cbv); try (cbv; congruence).
  - apply number_lt_trans.
  - intros [= H1] [= H2]. f_equal. exact (string_compare_lt_trans _ _ _ H1 H2).
  - intros [= H1] [= H2]. f_equal. exact (string_compare_lt_trans _ _ _ H1 H2).
Qed.

Lemma scalarLe_trans (a b c : JSValue) :
  isScalar a -> isScalar b -> isScalar c ->
  scalarLe a b -> scalarLe b c -> scalarLe a c.
Proof.
  unfold scalarLe. scalar_cases a b c;
    try (cbv; intuition congruence).
  - apply number_le_trans.
  - intros H1 H2.
    destruct (string_compare_le_trans s s0 s1) as [->| ->]; intuition congruence.
  - intros H1 H2.
    destruct (string_compare_le_trans (Symbol_toString y) (Symbol_toString y0)
                (Symbol_toString y1)) as [->| ->]; intuition congruence.
Qed.

Lemma scalarLt_rank (a b : JSValue) :
  isScalar a -> isScalar b ->
  rankBelow (rankScalarType a) (rankScalarType b) -> scalarLt a b.
Proof.
  unfold scalarLt. destruct a, b; try done; intros _ _ _; by cbv.
Qed.

(** C5 (as amended).  On the supported scalars the comparator orders as
    the specification says, the non-finite numbers apart: for scalars
    [a], [b] whose numbers are finite, [compare(a,b)] has a sign and it is
    the opposite of the sign of [compare(b,a)]; the strict and the weak
    order it induces are transitive on all scalars; and a scalar of a
    lower rank class compares below one of a higher class, in the order
    undefined, null, number, string, symbol. *)
Theorem compareScalars_orders_scalars (a b c : JSValue)
  (Ha : isScalar a) (Hb : isScalar b) (Hc : isScalar c) :
  (finiteScalar a -> finiteScalar b ->
   exists s, compareSign a b = Some s /\ compareSign b a = Some (CompOpp s))
  /\ (scalarLt a b -> scalarLt b c -> scalarLt a c)
  /\ (scalarLe a b -> scalarLe b c -> scalarLe a c)
  /\ (rankBelow (rankScalarType a) (rankScalarType b) -> scalarLt a b).
Proof.
  split; [apply compareSign_antisym|].
  split; [by apply scalarLt_trans|].
  split; [by apply scalarLe_trans|by apply scalarLt_rank].
Qed.

Lemma compareScalars_orders_scalars_witness :
  (exists s, compareSign (num 1) (num 2) = Some s
             /\ compareSign (num 2) (num 1) = Some (CompOpp s))
  /\ scalarLt (num 1) (VString "a")
  /\ scalarLe (num 1) (VString "a")
  /\ scalarLt (num 1) (num 2).
Proof.
  destruct (compareScalars_orders_scalars (num 1) (num 2) (VString "a") I I I)
    as (H1 & H2 & H3 & _).
  destruct (compareScalars_orders_scalars (num 2) (VString "a") (VString "a") I I I)
    as (_ & _ & _ & H4).
  split; [exact (H1 I I)|].
  assert (scalarLt (num 1) (num 2)) as H12 by reflexivity.
  assert (scalarLt (num 2) (VString "a")) as H2a by (apply H4; exact I).
  split; [exact (H2 H12 H2a)|].
  split; [|exact H12].
  apply H3; [by left|by left].
Defined.

(** C5 (as stated) fails on the numbers that are not finite: the
    comparator subtracts, and [Infinity - Infinity] is [NaN], which is
    neither negative, zero nor positive.  [Infinity] is a scalar that does
    not even compare equal to itself. *)
Lemma compareScalars_infinity_has_no_sign :
  isScalar (VNumber PosInfinity) = true
  /\ compareScalars (VNumber PosInfinity) (VNumber PosInfinity) = Normal NaN
  /\ ~ (exists s, compareSign (VNumber PosInfinity) (VNumber PosInfinity) = Some s
                  /\ compareSign (VNumber PosInfinity) (VNumber PosInfinity)
                     = Some (CompOpp s)).
Proof.
  split; [done|]. split; [done|].
  intros (s & H & _). discriminate H.
Qed.

(** C6.  The comparator does not throw on values of rank [OTHER]: for two
    such values the difference of the ranks is [NaN], and against a scalar
    it is infinite; either is returned by the test [compareRanks !== 0]
    before the [switch] whose [OTHER] arm throws. *)
Theorem compareScalars_other_returns :
  rankScalarType (VObject 0%nat) = OTHER
  /\ rankScalarType (VBoolean true) = OTHER
  /\ compareScalars (VObject 0%nat) (VObject 0%nat) = Normal NaN
  /\ compareScalars (VBoolean true) (VBoolean true) = Normal NaN
  /\ compareScalars (VObject 0%nat) (num 1) = Normal PosInfinity
  /\ compareScalars (num 1) (VObject 0%nat) = Normal NegInfinity.
Proof. repeat split; reflexivity. Qed.

(** ** The host's [Map] *)

Section JSMapFacts.
Context {K V : Type} `{EqDecision K}.
Implicit Types (map : JSMap K V) (k : K) (v : V).

Lemma Map_get_set_eq map k v : Map_get (Map_set map k v) k = Some v.
Proof.
  induction map as [|[k' v'] map IH]; simpl.
  - by rewrite decide_True.
  - destruct (decide (k' = k)) as [->|Hne]; simpl.
    + by rewrite decide_True.
    + by rewrite decide_False.
Qed.

Lemma Map_get_set_ne map k k' v :
  k <> k' -> Map_get (Map_set map k v) k' = Map_get map k'.
Proof.
  intros Hne. induction map as [|[k0 v0] map IH]; simpl.
  - by rewrite decide_False.
  - destruct (decide (k0 = k)) as [->|Hne0]; simpl.
    + by rewrite !decide_False.
    + destruct (decide (k0 = k')); [done|apply IH].
Qed.

Lemma Map_set_set map k v v' : Map_set (Map_set map k v) k v' = Map_set map k v'.
Proof.
  induction map as [|[k0 v0] map IH]; simpl.
  - by rewrite decide_True.
  - destruct (decide (k0 = k)) as [->|Hne]; simpl.
    + by rewrite decide_True.
    + rewrite decide_False by done. by rewrite IH.
Qed.

Lemma Map_get_delete_eq map k : Map_get (Map_delete map k) k = None.
Proof.
  unfold Map_delete. induction map as [|[k0 v0] map IH]; simpl; [done|].
  destruct (decide (k0 = k)) as [->|Hne].
  - by rewrite bool_decide_eq_true_2.
  - rewrite bool_decide_eq_false_2 by done. simpl. by rewrite decide_False.
Qed.

Lemma Map_get_delete_ne map k k' :
  k <> k' -> Map_get (Map_delete map k) k' = Map_get map k'.
Proof.
  intros Hne. unfold Map_delete.
  induction map as [|[k0 v0] map IH]; simpl; [done|].
  destruct (decide (k0 = k)) as [->|Hne0].
  - rewrite bool_decide_eq_true_2 by done. simpl. by rewrite decide_False.
  - rewrite bool_decide_eq_false_2 by done. simpl.
    destruct (decide (k0 = k')); [done|apply IH].
Qed.

End JSMapFacts.

(** ** Walks in the trie *)

Lemma child_setChild (node : Node) (s t : Step) (c : Node) :
  child (setChild node s c) t = if decide (t = s) then Some c else child node t.
Proof.
  destruct node as [v nx], s as [s1 s2], t as [t1 t2].
  unfold child, setChild; simpl.
  destruct (decide (s1 = t1)) as [<-|Hne1].
  - rewrite Map_get_set_eq; simpl.
    destruct (decide (s2 = t2)) as [<-|Hne2].
    + rewrite Map_get_set_eq. by rewrite decide_True.
    + rewrite Map_get_set_ne by done.
      rewrite decide_False by congruence.
      destruct nx as [nx|]; simpl; [|done].
      by destruct (Map_get nx s1).
  - rewrite Map_get_set_ne by done.
    rewrite decide_False by congruence.
    by destruct nx.
Qed.

Lemma child_removeChild (node : Node) (s t : Step) :
  child (removeChild node s) t = if decide (t = s) then None else child node t.
Proof.
  destruct node as [v nx], s as [s1 s2], t as [t1 t2].
  unfold child, removeChild; simpl.
  destruct (decide (s1 = t1)) as [<-|Hne1].
  - rewrite Map_get_set_eq; simpl.
    destruct (decide (s2 = t2)) as [<-|Hne2].
    + rewrite Map_get_delete_eq. by rewrite decide_True.
    + rewrite Map_get_delete_ne by done.
      rewrite decide_False by congruence.
      destruct nx as [nx|]; simpl; [|done].
      by destruct (Map_get nx s1).
  - rewrite Map_get_set_ne by done.
    rewrite decide_False by congruence.
    by destruct nx.
Qed.

Lemma child_newNode (s : Step) : child newNode s = None.
Proof. reflexivity. Qed.

Lemma makeNodeLoop_cons (key : JSObject) (keyElement : PropertyKey)
  (rest : list PropertyKey) (node : Node) :
  let s := (keyElement, getProp key keyElement) in
  makeNodeLoop key (keyElement :: rest) node
  = setChild node s (makeNodeLoop key rest (default newNode (child node s))).
Proof.
  destruct node as [v nx]. unfold child, setChild; simpl.
  unfold getOrMaybeAdd.
  destruct nx as [nx|]; simpl.
  - destruct (Map_get nx keyElement) as [inner|] eqn:Hin; simpl.
    + destruct (Map_get inner (getProp key keyElement)) as [c|]; simpl; [done|].
      by rewrite Map_set_set.
    + rewrite decide_True by done. by rewrite Map_set_set.
  - by rewrite !decide_True.
Qed.

Lemma assignValue_cons (s : Step) (rest : NodeRef) (v : Slot) (node : Node) :
  assignValue (s :: rest) v node
  = match child node s with
    | None => node
    | Some c => setChild node s (assignValue rest v c)
    end.
Proof.
  destruct node as [v0 nx]. unfold child, setChild; simpl.
  destruct nx as [nx|]; simpl; [|done].
  destruct (Map_get nx s.1) as [inner|]; simpl; [|done].
  by destruct (Map_get inner s.2).
Qed.

Lemma slotAt_nil (node : Node) : slotAt [] node = value node.
Proof. reflexivity. Qed.

Lemma slotAt_cons (s : Step) (rest : list Step) (node : Node) :
  slotAt (s :: rest) node
  = match child node s with
    | Some c => slotAt rest c
    | None => notPresent
    end.
Proof. unfold slotAt; simpl. by destruct (child node s). Qed.

Lemma slotAt_newNode (steps : list Step) : slotAt steps newNode = notPresent.
Proof. by destruct steps. Qed.

Lemma findNodeLoop_walk (key : JSObject) (keySeq : list PropertyKey) (node : Node) :
  findNodeLoop key keySeq node = walk (stepsOf key keySeq) node.
Proof.
  revert node. induction keySeq as [|k ks IH]; intros node; simpl; [done|].
  destruct (child node _); [apply IH|done].
Qed.

(** The value slots after [set]: the slot of the key holds the value, and
    every other slot is as it was. *)
Lemma slotAt_rootAfterSet (key : JSObject) (keySeq : list PropertyKey)
  (v : JSValue) (root : Node) (q : list Step) :
  slotAt q (rootAfterSet key keySeq v root)
  = if decide (q = stepsOf key keySeq) then Stored v else slotAt q root.
Proof.
  unfold rootAfterSet. revert root q.
  induction keySeq as [|k ks IH]; intros root q.
  - simpl. destruct q as [|t q]; [done|].
    rewrite decide_False by done. rewrite !slotAt_cons. by destruct root.
  - rewrite makeNodeLoop_cons.
    change (stepsOf key (k :: ks)) with ((k, getProp key k) :: stepsOf key ks).
    set (s := (k, getProp key k)).
    rewrite assignValue_cons, child_setChild, decide_True by done.
    destruct q as [|t q].
    + rewrite decide_False by done. by destruct root.
    + rewrite !slotAt_cons, !child_setChild.
      destruct (decide (t = s)) as [->|Hne].
      * rewrite IH.
        destruct (decide (q = stepsOf key ks)) as [->|Hq].
        -- by rewrite decide_True.
        -- rewrite decide_False by congruence.
           destruct (child root s); [done|apply slotAt_newNode].
      * by rewrite decide_False by congruence.
Qed.

(** ** The methods of [CMap] on the heap *)

Section Methods.
Context (h : Heap) (this key : loc) (m : CMapState) (obj : JSObject)
  (keySeq : list PropertyKey).
Hypothesis Hthis : h !! this = Some (CMapCell m).
Hypothesis Hkey : h !! key = Some (ObjectCell obj).
Hypothesis Hgen : keyGenerator m obj = Normal keySeq.

Lemma findNode_run :
  CMap.findNode this key h = (Normal (walk (stepsOf obj keySeq) (values m)), h).
Proof.
  unfold CMap.findNode, mbind, M_bind, readCMap, readObject, liftCompletion.
  rewrite Hthis, Hkey, Hgen. unfold mret, M_ret. by rewrite findNodeLoop_walk.
Qed.

Lemma get_run :
  CMap.get this key h
  = (Normal (slotValue (slotAt (stepsOf obj keySeq) (values m))), h).
Proof.
  unfold CMap.get, mbind at 1, M_bind at 1. rewrite findNode_run.
  unfold slotAt. destruct (walk _ _) as [node|]; [|done].
  by destruct (value node).
Qed.

Lemma set_run (v : JSValue) :
  CMap.set this key v h
  = (Normal this,
     <[this := CMapCell (mkCMap (keyGenerator m)
                           (rootAfterSet obj keySeq v (values m)))]> h).
Proof.
  unfold CMap.set, CMap.makeNode, mbind, M_bind, readCMap, readObject,
    liftCompletion, writeValues.
  rewrite Hthis, Hkey, Hgen, Hthis. unfold mret, M_ret.
  rewrite lookup_insert_eq. simpl. rewrite lookup_insert_eq. simpl.
  by rewrite insert_insert_eq.
Qed.

End Methods.

(** [get] and [findNode] never write to the heap, whatever they are given
    and whether or not they throw. *)
Lemma findNode_heap (h : Heap) (this key : loc) :
  (CMap.findNode this key h).2 = h.
Proof.
  unfold CMap.findNode, mbind, M_bind, readCMap, readObject, liftCompletion.
  destruct (h !! this) as [[o|m]|]; try done.
  destruct (h !! key) as [[o|m']|]; try done.
  by destruct (keyGenerator m o).
Qed.

Lemma get_heap (h : Heap) (this key : loc) : (CMap.get this key h).2 = h.
Proof.
  unfold CMap.get, mbind at 1, M_bind at 1.
  pose proof (findNode_heap h this key) as Hf.
  destruct (CMap.findNode this key h) as [[node|e] h']; simpl in Hf; subst h'; [|done].
  destruct node as [node|]; [|done]. by destruct (value node).
Qed.

(** [set] writes to the cell of the map and to no other. *)
Lemma set_heap_other (h : Heap) (this key : loc) (v : JSValue) (l : loc) :
  l <> this -> (CMap.set this key v h).2 !! l = h !! l.
Proof.
  intros Hne.
  unfold CMap.set, CMap.makeNode, mbind, M_bind, readCMap, readObject,
    liftCompletion, writeValues.
  destruct (h !! this) as [[o|m]|] eqn:Hthis; try done.
  destruct (h !! key) as [[o|m']|]; try done.
  destruct (keyGenerator m o); [|done].
  rewrite Hthis. unfold mret, M_ret. rewrite lookup_insert_eq. simpl.
  rewrite lookup_insert_eq. simpl.
  by rewrite insert_insert_eq, lookup_insert_ne.
Qed.

Lemma set_heap_key (h : Heap) (this key : loc) (v : JSValue) (obj : JSObject) :
  h !! key = Some (ObjectCell obj) ->
  (CMap.set this key v h).2 !! key = Some (ObjectCell obj).
Proof.
  intros Hkey. destruct (decide (key = this)) as [->|Hne].
  - unfold CMap.set, CMap.makeNode, mbind, M_bind, readCMap. by rewrite Hkey.
  - by rewrite set_heap_other.
Qed.

(** C9.  Reads do not change the state: [get], and the [findNode] it
    calls, return the heap they were given, so no node is created and the
    trie, the key and every other object are exactly as they were; [set]
    changes the cell of the map only, and the key object it is given is
    after the call what it was before.  The strategy is called inside
    these methods, so it has no effect on the heap either, and its result
    is a function of the content of the key. *)
Theorem reads_do_not_mutate (h : Heap) (this key : loc) (v : JSValue) :
  (CMap.get this key h).2 = h
  /\ (CMap.findNode this key h).2 = h
  /\ (forall l, l <> this -> (CMap.set this key v h).2 !! l = h !! l)
  /\ (forall obj, h !! key = Some (ObjectCell obj) ->
        (CMap.set this key v h).2 !! key = Some (ObjectCell obj))
  /\ (forall h' key' m obj,
        h !! this = Some (CMapCell m) -> h' !! this = Some (CMapCell m) ->
        h !! key = Some (ObjectCell obj) -> h' !! key' = Some (ObjectCell obj) ->
        (CMap.get this key h).1 = (CMap.get this key' h').1).
Proof.
  split; [apply get_heap|]. split; [apply findNode_heap|].
  split; [intros l; apply set_heap_other|].
  split; [intros obj; apply set_heap_key|].
  intros h' key' m obj Hm Hm' Ho Ho'.
  destruct (keyGenerator m obj) as [ks|e] eqn:Hgen.
  - by rewrite (get_run h this key m obj ks), (get_run h' this key' m obj ks).
  - unfold CMap.get, CMap.findNode, mbind, M_bind, readCMap, readObject,
      liftCompletion.
    by rewrite Hm, Hm', Ho, Ho', Hgen.
Qed.

Section SetThenGet.
Context (h : Heap) (this key : loc) (m : CMapState) (obj : JSObject)
  (keySeq : list PropertyKey).
Hypothesis Hthis : h !! this = Some (CMapCell m).
Hypothesis Hkey : h !! key = Some (ObjectCell obj).
Hypothesis Hgen : keyGenerator m obj = Normal keySeq.

Lemma key_is_not_this : key <> this.
Proof. intros ->. congruence. Qed.

(** The heap after [set]: the map holds the new root, under the same
    strategy, and the objects are where they were. *)
Lemma heap_after_set (v : JSValue) :
  let h' := (CMap.set this key v h).2 in
  h' !! this = Some (CMapCell (mkCMap (keyGenerator m)
                                 (rootAfterSet obj keySeq v (values m))))
  /\ (forall l, l <> this -> h' !! l = h !! l).
Proof.
  rewrite (set_run h this key m obj keySeq) by done. simpl. split.
  - by rewrite lookup_insert_eq.
  - intros l Hne. by rewrite lookup_insert_ne.
Qed.

(** Another key [key'] of content [obj'] read after [set]. *)
Lemma get_after_set (v : JSValue) (key' : loc) (obj' : JSObject)
  (keySeq' : list PropertyKey) :
  h !! key' = Some (ObjectCell obj') ->
  keyGenerator m obj' = Normal keySeq' ->
  (CMap.get this key' (CMap.set this key v h).2).1
  = Normal (slotValue
              (if decide (stepsOf obj' keySeq' = stepsOf obj keySeq)
               then Stored v
               else slotAt (stepsOf obj' keySeq') (values m))).
Proof.
  intros Hkey' Hgen'.
  destruct (heap_after_set v) as [Hm' Hother].
  assert (key' <> this) as Hne by (intros ->; congruence).
  erewrite get_run; [|exact Hm'|by rewrite Hother|exact Hgen'].
  simpl. by rewrite slotAt_rootAfterSet.
Qed.

End SetThenGet.

(** C7.  [set] returns the map it was called on, so calls chain; and two
    calls of [set] on one key leave the map with the value of the second:
    the program [m.set(k, v1).set(k, v2).get(k)] returns [v2].  The key
    is any object on which the strategy of the map yields a sequence. *)
Theorem set_returns_this_and_overwrites (h : Heap) (this key : loc)
  (m : CMapState) (obj : JSObject) (keySeq : list PropertyKey) (v1 v2 : JSValue)
  (Hthis : h !! this = Some (CMapCell m))
  (Hkey : h !! key = Some (ObjectCell obj))
  (Hgen : keyGenerator m obj = Normal keySeq) :
  (CMap.set this key v1 h).1 = Normal this
  /\ ((m1 ← CMap.set this key v1;
       m2 ← CMap.set m1 key v2;
       r ← CMap.get m2 key;
       mret (m1, m2, r)) h).1 = Normal (this, this, v2).
Proof.
  pose proof (key_is_not_this h this key m obj Hthis Hkey) as Hne.
  destruct (heap_after_set h this key m obj keySeq Hthis Hkey Hgen v1) as [Hm1 Ho1].
  split; [by rewrite (set_run h this key m obj keySeq)|].
  unfold mbind at 1, M_bind at 1.
  destruct (CMap.set this key v1 h) as [r1 h1] eqn:E1.
  rewrite (set_run h this key m obj keySeq) in E1 by done.
  injection E1 as <- <-.
  set (h1 := <[this:=_]> h) in *. simpl in Hm1, Ho1.
  unfold mbind at 1, M_bind at 1.
  pose proof (get_after_set h1 this key _ obj keySeq Hm1
                ltac:(by rewrite Ho1) Hgen v2 key obj keySeq
                ltac:(by rewrite Ho1) Hgen) as Hget.
  destruct (CMap.set this key v2 h1) as [r2 h2] eqn:E2.
  rewrite (set_run h1 this key _ obj keySeq Hm1) in E2;
    [|by rewrite Ho1|exact Hgen].
  injection E2 as <- <-. simpl in Hget.
  unfold mbind, M_bind.
  destruct (CMap.get this key _) as [r3 h3]. simpl in Hget. subst r3.
  by rewrite decide_True.
Qed.

Lemma set_returns_this_and_overwrites_witness :
  (CMap.set 0%nat 1%nat (num 1) exampleHeap).1 = Normal 0%nat
  /\ ((m1 ← CMap.set 0%nat 1%nat (num 1);
       m2 ← CMap.set m1 1%nat (num 11);
       r ← CMap.get m2 1%nat;
       mret (m1, m2, r)) exampleHeap).1 = Normal (0%nat, 0%nat, num 11).
Proof.
  apply (set_returns_this_and_overwrites exampleHeap 0%nat 1%nat
           (mkCMap asValues newNode) key_a1b2 [PString "a"; PString "b"]);
    reflexivity.
Defined.

Lemma reads_do_not_mutate_witness :
  (CMap.get 0%nat 1%nat exampleHeap).2 = exampleHeap
  /\ (CMap.set 0%nat 1%nat (num 1) exampleHeap).2 !! 1%nat
     = Some (ObjectCell key_a1b2)
  /\ (CMap.set 0%nat 1%nat (num 1) exampleHeap).2 !! 2%nat
     = exampleHeap !! 2%nat.
Proof.
  destruct (reads_do_not_mutate exampleHeap 0%nat 1%nat (num 1))
    as (Hget & _ & Hother & Hkey & _).
  split; [exact Hget|]. split.
  - apply Hkey. reflexivity.
  - apply Hother. discriminate.
Defined.

Lemma bind_run {A B : Type} (c : M A) (f : A -> M B) (h h' : Heap) (a : A) :
  c h = (Normal a, h') -> (c ≫= f) h = f a h'.
Proof. intros Hc. unfold mbind, M_bind. by rewrite Hc. Qed.

(** C10.  A stored [undefined] reads like an absent key: after
    [set(k, undefined)], [get(k)] returns [undefined], which is also what
    [get] returns for a key whose slot is not present; yet the slot of
    the key then holds a stored [undefined], which is not the sentinel.
    The key is any object on which the strategy of the map yields a
    sequence. *)
Theorem stored_undefined_reads_as_absent (h : Heap) (this key : loc)
  (m : CMapState) (obj : JSObject) (keySeq : list PropertyKey)
  (Hthis : h !! this = Some (CMapCell m))
  (Hkey : h !! key = Some (ObjectCell obj))
  (Hgen : keyGenerator m obj = Normal keySeq) :
  ((_ ← CMap.set this key VUndefined; CMap.get this key) h).1 = Normal VUndefined
  /\ (slotAt (stepsOf obj keySeq) (values m) = notPresent ->
      (CMap.get this key h).1 = Normal VUndefined)
  /\ (exists m',
        (CMap.set this key VUndefined h).2 !! this = Some (CMapCell m')
        /\ slotAt (stepsOf obj keySeq) (values m') = Stored VUndefined
        /\ slotAt (stepsOf obj keySeq) (values m') <> notPresent).
Proof.
  destruct (heap_after_set h this key m obj keySeq Hthis Hkey Hgen VUndefined)
    as [Hm1 Ho1].
  split; [|split].
  - erewrite bind_run by (by apply set_run).
    pose proof (get_after_set h this key m obj keySeq Hthis Hkey Hgen
                  VUndefined key obj keySeq Hkey Hgen) as Hget.
    rewrite (set_run h this key m obj keySeq) in Hget by done.
    simpl in Hget. rewrite Hget. by rewrite decide_True.
  - intros Habsent. rewrite (get_run h this key m obj keySeq) by done.
    simpl. by rewrite Habsent.
  - eexists. split; [exact Hm1|]. simpl.
    rewrite slotAt_rootAfterSet, decide_True by done. done.
Qed.

Lemma stored_undefined_reads_as_absent_witness :
  ((_ ← CMap.set 0%nat 1%nat VUndefined; CMap.get 0%nat 1%nat) exampleHeap).1
  = Normal VUndefined
  /\ (CMap.get 0%nat 1%nat exampleHeap).1 = Normal VUndefined.
Proof.
  destruct (stored_undefined_reads_as_absent exampleHeap 0%nat 1%nat
              (mkCMap asValues newNode) key_a1b2 [PString "a"; PString "b"]
              eq_refl eq_refl eq_refl) as (H1 & H2 & _).
  split; [exact H1|]. apply H2. reflexivity.
Defined.

Lemma builtin_generators_on_test_keys (m : CMapState) :
  keyGenerator m = asValues \/ keyGenerator m = asObjectsGenerator ->
  keyGenerator m key_a1 = Normal [PString "a"]
  /\ keyGenerator m key_a1b2 = Normal [PString "a"; PString "b"]
  /\ keyGenerator m key_a1b3 = Normal [PString "a"; PString "b"].
Proof. by intros [-> | ->]. Qed.

(** C2.  Keys that are prefixes of one another do not interfere.  On a
    map with either built-in strategy that holds no value for [{a:1}],
    after [set({a:1,b:2}, x)] and [set({a:1,b:3}, y)], [get({a:1})] returns
    [undefined], [get({a:1,b:2})] returns [x] and [get({a:1,b:3})] returns
    [y]; the keys read may be other objects than the keys written, with
    the same fields. *)
Theorem prefix_keys_do_not_interfere (h : Heap) (this : loc) (m : CMapState)
  (w2 w3 r1 r2 r3 : loc) (x y : JSValue)
  (Hthis : h !! this = Some (CMapCell m))
  (Hgen : keyGenerator m = asValues \/ keyGenerator m = asObjectsGenerator)
  (Hw2 : h !! w2 = Some (ObjectCell key_a1b2))
  (Hw3 : h !! w3 = Some (ObjectCell key_a1b3))
  (Hr1 : h !! r1 = Some (ObjectCell key_a1))
  (Hr2 : h !! r2 = Some (ObjectCell key_a1b2))
  (Hr3 : h !! r3 = Some (ObjectCell key_a1b3))
  (Habsent : slotAt [(PString "a", num 1)] (values m) = notPresent) :
  ((_ ← CMap.set this w2 x;
    _ ← CMap.set this w3 y;
    a ← CMap.get this r1;
    b ← CMap.get this r2;
    c ← CMap.get this r3;
    mret (a, b, c)) h).1 = Normal (VUndefined, x, y).
Proof.
  destruct (builtin_generators_on_test_keys m Hgen) as (G1 & G2 & G3).
  destruct (heap_after_set h this w2 m _ _ Hthis Hw2 G2 x) as [Hm1 Ho1].
  erewrite bind_run by (by eapply set_run).
  rewrite (set_run h this w2 m _ _ Hthis Hw2 G2) in Hm1, Ho1.
  simpl in Hm1, Ho1. set (h1 := <[this:=_]> h) in *.
  assert (forall l o, h !! l = Some (ObjectCell o) -> h1 !! l = Some (ObjectCell o))
    as Hobj1.
  { intros l o Hl. rewrite Ho1; [done|]. intros ->. congruence. }
  destruct (heap_after_set h1 this w3 _ _ _ Hm1 (Hobj1 _ _ Hw3) G3 y) as [Hm2 Ho2].
  erewrite bind_run by (eapply set_run; [exact Hm1|by apply Hobj1|exact G3]).
  rewrite (set_run h1 this w3 _ _ _ Hm1 (Hobj1 _ _ Hw3) G3) in Hm2, Ho2.
  simpl in Hm2, Ho2. set (h2 := <[this:=_]> h1) in *.
  assert (forall l o, h !! l = Some (ObjectCell o) -> h2 !! l = Some (ObjectCell o))
    as Hobj2.
  { intros l o Hl. rewrite Ho2; [by apply Hobj1|]. intros ->. congruence. }
  erewrite bind_run by (eapply get_run; [exact Hm2|by apply Hobj2|exact G1]).
  erewrite bind_run by (eapply get_run; [exact Hm2|by apply Hobj2|exact G2]).
  erewrite bind_run by (eapply get_run; [exact Hm2|by apply Hobj2|exact G3]).
  unfold mret, M_ret. cbn [fst values]. rewrite !slotAt_rootAfterSet.
  change (stepsOf key_a1 [PString "a"]) with [(PString "a", num 1)].
  change (stepsOf key_a1b2 [PString "a"; PString "b"])
    with [(PString "a", num 1); (PString "b", num 2)].
  change (stepsOf key_a1b3 [PString "a"; PString "b"])
    with [(PString "a", num 1); (PString "b", num 3)].
  rewrite Habsent.
  unfold num in *. repeat case_decide; try congruence. done.
Qed.

Lemma prefix_keys_do_not_interfere_witness :
  ((_ ← CMap.set 0%nat 1%nat (num 7);
    _ ← CMap.set 0%nat 3%nat (num 8);
    a ← CMap.get 0%nat 4%nat;
    b ← CMap.get 0%nat 1%nat;
    c ← CMap.get 0%nat 3%nat;
    mret (a, b, c)) exampleHeap).1 = Normal (VUndefined, num 7, num 8).
Proof.
  apply (prefix_keys_do_not_interfere exampleHeap 0%nat
           (mkCMap asValues newNode) 1%nat 3%nat 4%nat 1%nat 3%nat);
    first [reflexivity | by left].
Defined.

(** ** Objects and the insertion-order strategy *)

Lemma filter_filter_andb {A : Type} (P Q : A -> bool) (l : list A) :
  List.filter P (List.filter Q l) = List.filter (fun x => Q x && P x) l.
Proof.
  induction l as [|x l IH]; simpl; [done|].
  destruct (Q x); simpl; [|done]. destruct (P x); by rewrite IH.
Qed.

Lemma getOwnPropertyDescriptor_own (obj : JSObject) (p : Property) :
  wfObject obj -> p ∈ obj -> getOwnPropertyDescriptor obj (prop_key p) = Some p.
Proof.
  unfold wfObject, getOwnPropertyDescriptor.
  induction obj as [|p0 obj IH]; intros Hwf Hin; [by apply elem_of_nil in Hin|].
  rewrite fmap_cons in Hwf. apply NoDup_cons in Hwf as [Hnotin Hwf].
  simpl. apply elem_of_cons in Hin as [->|Hin].
  - by rewrite bool_decide_eq_true_2.
  - rewrite bool_decide_eq_false_2; [by apply IH|].
    intros Heq. apply Hnotin. rewrite Heq. by apply list_elem_of_fmap_2.
Qed.

Lemma isEnumerable_own (obj : JSObject) (p : Property) :
  wfObject obj -> p ∈ obj -> isEnumerable obj (prop_key p) = enumerable p.
Proof.
  intros Hwf Hin. unfold isEnumerable.
  rewrite getOwnPropertyDescriptor_own by done. by destruct (enumerable p).
Qed.

Lemma filter_isEnumerable_ownKeys (obj : JSObject) :
  wfObject obj -> List.filter (isEnumerable obj) (ownKeys obj) = enumerableKeys obj.
Proof.
  intros Hwf. unfold ownKeys, enumerableKeys.
  change (prop_key <$> obj) with (map prop_key obj).
  rewrite List.filter_map_swap. f_equal.
  apply List.filter_ext_in. intros p Hin.
  apply isEnumerable_own; [done|by apply list_elem_of_In].
Qed.

(** Sorting array indices: the insertion keeps a sorted list sorted, and
    commutes with filtering. *)
Lemma insertByIndex_head (k : PropertyKey) (sorted : list PropertyKey) :
  Forall (indexLe k) sorted -> insertByIndex k sorted = k :: sorted.
Proof.
  destruct sorted as [|k' rest]; [done|]. intros Hall.
  apply Forall_cons in Hall as [Hle _]. simpl.
  unfold indexLe in Hle. by rewrite (proj2 (N.leb_le _ _) Hle).
Qed.

Lemma insertByIndex_perm (k : PropertyKey) (sorted : list PropertyKey) :
  insertByIndex k sorted ≡ₚ k :: sorted.
Proof.
  induction sorted as [|k' rest IH]; simpl; [done|].
  destruct (indexOf k <=? indexOf k')%N; [done|].
  rewrite IH. apply Permutation_swap.
Qed.

Lemma ascendingIndices_perm (ks : list PropertyKey) : ascendingIndices ks ≡ₚ ks.
Proof.
  induction ks as [|k ks IH]; simpl; [done|].
  by rewrite insertByIndex_perm, IH.
Qed.

Lemma insertByIndex_sorted (k : PropertyKey) (sorted : list PropertyKey) :
  StronglySorted indexLe sorted -> StronglySorted indexLe (insertByIndex k sorted).
Proof.
  induction sorted as [|k' rest IH]; intros Hs; simpl.
  - by repeat constructor.
  - apply StronglySorted_inv in Hs as [Hrest Hall].
    destruct (indexOf k <=? indexOf k')%N eqn:Hle.
    + apply N.leb_le in Hle. constructor; [by constructor|].
      constructor; [done|].
      eapply Forall_impl; [exact Hall|]. unfold indexLe. intros; lia.
    + apply N.leb_gt in Hle. constructor; [by apply IH|].
      rewrite insertByIndex_perm. constructor; [|done].
      unfold indexLe. lia.
Qed.

Lemma ascendingIndices_sorted (ks : list PropertyKey) :
  StronglySorted indexLe (ascendingIndices ks).
Proof.
  induction ks as [|k ks IH]; simpl; [constructor|by apply insertByIndex_sorted].
Qed.

Lemma filter_insertByIndex (P : PropertyKey -> bool) (k : PropertyKey)
  (sorted : list PropertyKey) :
  StronglySorted indexLe sorted ->
  List.filter P (insertByIndex k sorted)
  = if P k then insertByIndex k (List.filter P sorted) else List.filter P sorted.
Proof.
  induction sorted as [|k' rest IH]; intros Hs; simpl.
  - by destruct (P k).
  - apply StronglySorted_inv in Hs as [Hrest Hall].
    destruct (indexOf k <=? indexOf k')%N eqn:Hle; simpl.
    + destruct (P k) eqn:Hk, (P k') eqn:Hk'; simpl; rewrite ?Hle; try done.
      symmetry. apply insertByIndex_head.
      apply N.leb_le in Hle.
      apply Forall_forall. intros y Hy.
      apply list_elem_of_In, List.filter_In in Hy as [Hy _].
      apply list_elem_of_In in Hy.
      rewrite Forall_forall in Hall. specialize (Hall y Hy).
      unfold indexLe in *. lia.
    + rewrite (IH Hrest).
      destruct (P k) eqn:Hk, (P k') eqn:Hk'; simpl; rewrite ?Hle; done.
Qed.

Lemma filter_ascendingIndices (P : PropertyKey -> bool) (ks : list PropertyKey) :
  List.filter P (ascendingIndices ks) = ascendingIndices (List.filter P ks).
Proof.
  induction ks as [|k ks IH]; simpl; [done|].
  rewrite filter_insertByIndex by apply ascendingIndices_sorted.
  rewrite IH. by destruct (P k).
Qed.

(** The sequence of the insertion-order strategy, in terms of the
    enumerable selectors in definition order. *)
Lemma asObjects_enumerableKeys (obj : JSObject) :
  wfObject obj ->
  asObjects obj
  = (ascendingIndices (List.filter isArrayIndex (enumerableKeys obj))
      ++ List.filter isPlainName (enumerableKeys obj)
      ++ List.filter isSymbolKey (enumerableKeys obj))%list.
Proof.
  intros Hwf. rewrite <- (filter_isEnumerable_ownKeys obj Hwf).
  unfold asObjects, filterIt, getOwnPropertyNames, getOwnPropertySymbols.
  rewrite List.filter_app, filter_ascendingIndices, !filter_filter_andb, <- app_assoc.
  f_equal; [f_equal|f_equal]; apply List.filter_ext; intros k;
    unfold isPlainName; destruct k as [s|y]; simpl;
    destruct (isEnumerable obj _); try done;
    by destruct (bool_decide _).
Qed.

Lemma three_filters_perm (ks : list PropertyKey) :
  (List.filter isArrayIndex ks ++ List.filter isPlainName ks
     ++ List.filter isSymbolKey ks)%list ≡ₚ ks.
Proof.
  induction ks as [|k ks IH]; [done|].
  unfold isPlainName in *. destruct k as [s|y]; simpl.
  - destruct (bool_decide (is_Some (arrayIndex s))); simpl.
    + by rewrite IH.
    + rewrite <- Permutation_middle. by rewrite IH.
  - rewrite app_assoc, <- Permutation_middle, <- app_assoc. by rewrite IH.
Qed.

Lemma asObjects_perm (obj : JSObject) :
  wfObject obj -> asObjects obj ≡ₚ enumerableKeys obj.
Proof.
  intros Hwf. rewrite asObjects_enumerableKeys by done.
  rewrite ascendingIndices_perm. apply three_filters_perm.
Qed.

(** C8 (as amended).  The insertion-order strategy yields exactly the
    enumerable selectors of the key and skips the other fields; the
    selectors that are array indices come first, in ascending numeric
    order; the other string selectors follow in definition order; the
    symbol selectors come last, in definition order.  For a key none of
    whose enumerable selectors is an array index the sequence is the
    string selectors in definition order, then the symbol selectors in
    definition order. *)
Theorem asObjects_order (obj : JSObject) (Hwf : wfObject obj) :
  asObjects obj
  = (ascendingIndices (List.filter isArrayIndex (enumerableKeys obj))
       ++ List.filter isPlainName (enumerableKeys obj)
       ++ List.filter isSymbolKey (enumerableKeys obj))%list
  /\ ascendingIndices (List.filter isArrayIndex (enumerableKeys obj))
       ≡ₚ List.filter isArrayIndex (enumerableKeys obj)
  /\ StronglySorted indexLe
       (ascendingIndices (List.filter isArrayIndex (enumerableKeys obj)))
  /\ (forall k, k ∈ asObjects obj <-> k ∈ enumerableKeys obj)
  /\ (forall p, p ∈ obj -> enumerable p = false -> prop_key p ∉ asObjects obj)
  /\ (Forall (fun k => isArrayIndex k = false) (enumerableKeys obj) ->
      asObjects obj
      = (List.filter isStringKey (enumerableKeys obj)
           ++ List.filter isSymbolKey (enumerableKeys obj))%list).
Proof.
  split; [by apply asObjects_enumerableKeys|].
  split; [apply ascendingIndices_perm|].
  split; [apply ascendingIndices_sorted|].
  assert (forall k, k ∈ asObjects obj <-> k ∈ enumerableKeys obj) as Hmem.
  { intros k. by rewrite asObjects_perm. }
  split; [exact Hmem|]. split.
  - intros p Hp Hen Hin. apply Hmem in Hin.
    rewrite <- filter_isEnumerable_ownKeys in Hin by done.
    apply list_elem_of_In, List.filter_In in Hin as [_ Hin].
    rewrite isEnumerable_own in Hin by done. congruence.
  - intros Hnone. rewrite asObjects_enumerableKeys by done.
    rewrite Forall_forall in Hnone.
    replace (List.filter isArrayIndex (enumerableKeys obj)) with (@nil PropertyKey).
    + simpl. f_equal. apply List.filter_ext_in. intros k Hk.
      unfold isPlainName. rewrite (Hnone k) by (by apply list_elem_of_In).
      by rewrite andb_true_r.
    + symmetry. erewrite List.filter_ext_in; [apply List.filter_false|].
      intros k Hk. apply Hnone. by apply list_elem_of_In.
Qed.

Lemma wfObject_literal_examples :
  wfObject key_a1b2 /\ wfObject key_b2a1 /\ wfObject key_ss' /\ wfObject key_s's
  /\ wfObject key_b_0.
Proof. repeat split; apply (bool_decide_unpack _); by vm_compute. Qed.

Lemma asObjects_order_witness :
  asObjects key_a1b2 = [PString "a"; PString "b"]
  /\ asObjects key_b_0 = [PString "0"; PString "b"].
Proof.
  destruct wfObject_literal_examples as (Hwf & _ & _ & _ & Hwf0).
  destruct (asObjects_order key_a1b2 Hwf) as (_ & _ & _ & _ & _ & H).
  destruct (asObjects_order key_b_0 Hwf0) as (H0 & _).
  split; [|exact H0].
  apply H. repeat constructor.
Defined.

(** C8 (as stated) fails on a key with a selector that is an array index:
    the host lists such names first, whatever the order of definition.
    For [{b: 1, 0: 2}] the strategy yields ["0", "b"]. *)
Lemma asObjects_lists_array_indices_first :
  wfObject key_b_0
  /\ enumerableKeys key_b_0 = [PString "b"; PString "0"]
  /\ asObjects key_b_0 = [PString "0"; PString "b"]
  /\ asObjects key_b_0
     <> (List.filter isStringKey (enumerableKeys key_b_0)
           ++ List.filter isSymbolKey (enumerableKeys key_b_0))%list.
Proof.
  split; [apply wfObject_literal_examples|].
  split; [reflexivity|]. split; [reflexivity|]. by vm_compute.
Qed.

(** ** The sorted strategy *)

Lemma keyValue_finite (k : PropertyKey) : finiteScalar (keyValue k).
Proof. by destruct k. Qed.

Lemma keyValue_scalar (k : PropertyKey) : isScalar (keyValue k).
Proof. by destruct k. Qed.

Lemma number_gt_zero_sign (n : number) (c : comparison) :
  sign n = Some c -> number_gt_zero n = bool_decide (c = Gt).
Proof.
  destruct n as [| |z|]; cbn [sign number_gt_zero]; intros [= <-]; try done.
  destruct (Z.compare_spec z 0), (Z.ltb_spec 0 z); try lia; done.
Qed.

Lemma SortCompare_selectors (x y : PropertyKey) :
  exists n c, SortCompare compareSelectors x y = Normal n
              /\ sign n = Some c
              /\ compareSign (keyValue x) (keyValue y) = Some c
              /\ compareSign (keyValue y) (keyValue x) = Some (CompOpp c).
Proof.
  destruct (compareSign_antisym (keyValue x) (keyValue y)
              (keyValue_finite x) (keyValue_finite y)) as (c & Hxy & Hyx).
  unfold SortCompare, compareSelectors.
  pose proof Hxy as Hsign. unfold compareSign in Hsign.
  destruct (compareScalars (keyValue x) (keyValue y)) as [n|e]; [|done].
  exists n, c. split; [by destruct n|done].
Qed.

Lemma selectorLe_trans (a b c : PropertyKey) :
  selectorLe a b -> selectorLe b c -> selectorLe a c.
Proof. apply scalarLe_trans; apply keyValue_scalar. Qed.

Lemma sortInsert_selectors (x : PropertyKey) (sorted : list PropertyKey) :
  StronglySorted selectorLe sorted ->
  exists sorted', sortInsert compareSelectors x sorted = Normal sorted'
                  /\ sorted' ≡ₚ x :: sorted
                  /\ StronglySorted selectorLe sorted'.
Proof.
  induction sorted as [|y rest IH]; intros Hs.
  - exists [x]. repeat split; [done|]. by repeat constructor.
  - apply StronglySorted_inv in Hs as [Hrest Hall].
    destruct (SortCompare_selectors x y) as (n & c & Hn & Hsign & Hxy & Hyx).
    cbn [sortInsert]. rewrite Hn. cbn [mbind Completion_bind].
    rewrite (number_gt_zero_sign n c Hsign).
    destruct c; simpl.
    + exists (x :: y :: rest). repeat split; [done|].
      assert (selectorLe x y) as Hle by (by right).
      constructor; [by constructor|]. constructor; [done|].
      eapply Forall_impl; [exact Hall|]. intros z Hz.
      by apply (selectorLe_trans x y z).
    + exists (x :: y :: rest). repeat split; [done|].
      assert (selectorLe x y) as Hle by (by left).
      constructor; [by constructor|]. constructor; [done|].
      eapply Forall_impl; [exact Hall|]. intros z Hz.
      by apply (selectorLe_trans x y z).
    + destruct (IH Hrest) as (rest' & Hins & Hperm & Hsorted).
      rewrite Hins. exists (y :: rest'). split; [done|]. split.
      * rewrite Hperm. apply Permutation_swap.
      * constructor; [done|]. rewrite Hperm. constructor; [by left|done].
Qed.

(** The sort of the selectors of a key never throws; it returns a sorted
    permutation of them. *)
Lemma Array_sort_selectors (ks : list PropertyKey) :
  exists sorted, Array_sort compareSelectors ks = Normal sorted
                 /\ sorted ≡ₚ ks
                 /\ StronglySorted selectorLe sorted.
Proof.
  induction ks as [|k ks IH].
  - exists []. repeat split; [done|constructor].
  - destruct IH as (sorted & Hsort & Hperm & Hsorted).
    destruct (sortInsert_selectors k sorted Hsorted) as (sorted' & Hins & Hperm' & Hs').
    exists sorted'. cbn [Array_sort]. rewrite Hsort. cbn [mbind Completion_bind].
    split; [done|]. split; [|done]. by rewrite Hperm', Hperm.
Qed.

(** Both built-in strategies return a sequence for every key. *)
Lemma asValues_returns (obj : JSObject) :
  exists keySeq, asValues obj = Normal keySeq /\ keySeq ≡ₚ asObjects obj.
Proof.
  destruct (Array_sort_selectors (asObjects obj)) as (sorted & Hs & Hp & _).
  by exists sorted.
Qed.

(** Two selectors that compare equal are one selector, unless they are
    two symbols that print alike. *)
Lemma selectorLe_antisym (a b : PropertyKey) :
  (forall y z, a = PSymbol y -> b = PSymbol z ->
               Symbol_toString y = Symbol_toString z -> y = z) ->
  selectorLe a b -> selectorLe b a -> a = b.
Proof.
  intros Hsym Hab Hba. unfold selectorLe, scalarLe in *.
  destruct (compareSign_antisym (keyValue a) (keyValue b)
              (keyValue_finite a) (keyValue_finite b)) as (c & Hc & Hc').
  rewrite Hc in Hab. rewrite Hc' in Hba.
  assert (c = Eq) as -> by (destruct c; simpl in *; intuition congruence).
  destruct a as [s|y], b as [t|z]; cbn [keyValue] in Hc.
  - rewrite compareSign_strings in Hc. injection Hc as Hc.
    apply String.compare_eq_iff in Hc. by subst.
  - by cbv in Hc.
  - by cbv in Hc.
  - rewrite compareSign_symbols in Hc. injection Hc as Hc.
    f_equal. apply (Hsym y z eq_refl eq_refl).
    exact (String.compare_eq_iff (Symbol_toString y) (Symbol_toString z) Hc).
Qed.

(** ** Keys with the same fields *)

Lemma elem_of_entries (obj : JSObject) (k : PropertyKey) (v : JSValue) :
  (k, v) ∈ entries obj
  <-> exists p, p ∈ obj /\ enumerable p = true /\ prop_key p = k /\ prop_value p = v.
Proof.
  unfold entries. rewrite list_elem_of_fmap. split.
  - intros (p & [= -> ->] & Hp).
    apply list_elem_of_In, List.filter_In in Hp as [Hp Hen].
    exists p. by rewrite list_elem_of_In.
  - intros (p & Hp & Hen & <- & <-). exists p. split; [done|].
    apply list_elem_of_In, List.filter_In. by rewrite <- list_elem_of_In.
Qed.

Lemma elem_of_enumerableKeys (obj : JSObject) (k : PropertyKey) :
  k ∈ enumerableKeys obj <-> exists v, (k, v) ∈ entries obj.
Proof.
  unfold enumerableKeys. rewrite list_elem_of_fmap. split.
  - intros (p & -> & Hp). exists (prop_value p).
    apply elem_of_entries. exists p.
    apply list_elem_of_In, List.filter_In in Hp as [Hp Hen].
    by rewrite list_elem_of_In.
  - intros (v & Hin). apply elem_of_entries in Hin as (p & Hp & Hen & <- & _).
    exists p. split; [done|].
    apply list_elem_of_In, List.filter_In. by rewrite <- list_elem_of_In.
Qed.

Lemma NoDup_enumerableKeys (obj : JSObject) :
  wfObject obj -> NoDup (enumerableKeys obj).
Proof.
  unfold wfObject, enumerableKeys.
  induction obj as [|p obj IH]; intros Hwf; [constructor|].
  rewrite fmap_cons in Hwf. apply NoDup_cons in Hwf as [Hnotin Hwf].
  simpl. destruct (enumerable p); [|by apply IH].
  rewrite fmap_cons. apply NoDup_cons. split; [|by apply IH].
  intros Hin. apply Hnotin.
  apply list_elem_of_fmap in Hin as (p' & -> & Hp').
  apply list_elem_of_fmap_2.
  apply list_elem_of_In, List.filter_In in Hp' as [Hp' _].
  by apply list_elem_of_In.
Qed.

Lemma entries_getProp (obj : JSObject) (k : PropertyKey) (v : JSValue) :
  wfObject obj -> (k, v) ∈ entries obj -> getProp obj k = v.
Proof.
  intros Hwf Hin. apply elem_of_entries in Hin as (p & Hp & _ & <- & <-).
  unfold getProp. by rewrite getOwnPropertyDescriptor_own.
Qed.

Lemma enumerableKeys_sameEntries (k1 k2 : JSObject) :
  wfObject k1 -> wfObject k2 -> sameEntries k1 k2 ->
  enumerableKeys k1 ≡ₚ enumerableKeys k2.
Proof.
  intros Hwf1 Hwf2 Hsame.
  apply NoDup_Permutation; [by apply NoDup_enumerableKeys..|].
  intros k. rewrite !elem_of_enumerableKeys.
  split; intros [v Hv]; exists v; by apply Hsame.
Qed.

Lemma stepsOf_sameEntries (k1 k2 : JSObject) (keySeq : list PropertyKey) :
  wfObject k1 -> wfObject k2 -> sameEntries k1 k2 ->
  (forall k, k ∈ keySeq -> k ∈ enumerableKeys k1) ->
  stepsOf k1 keySeq = stepsOf k2 keySeq.
Proof.
  intros Hwf1 Hwf2 Hsame Hall. unfold stepsOf.
  apply list_fmap_ext. intros i k Hk.
  apply list_elem_of_lookup_2 in Hk.
  apply Hall, elem_of_enumerableKeys in Hk as [v Hv].
  f_equal. rewrite (entries_getProp k1 k v) by done.
  symmetry. apply entries_getProp; [done|]. by apply Hsame.
Qed.

(** The sorted strategy returns, and returns one sequence for two keys
    with the same fields, whatever the order the fields were written in,
    when no two symbol selectors print alike. *)
Lemma asValues_sameEntries (k1 k2 : JSObject) :
  wfObject k1 -> wfObject k2 -> sameEntries k1 k2 -> distinctRenderings k1 ->
  exists keySeq, asValues k1 = Normal keySeq /\ asValues k2 = Normal keySeq
                 /\ stepsOf k1 keySeq = stepsOf k2 keySeq.
Proof.
  intros Hwf1 Hwf2 Hsame Hdistinct.
  destruct (Array_sort_selectors (asObjects k1)) as (s1 & Hs1 & Hp1 & Hsorted1).
  destruct (Array_sort_selectors (asObjects k2)) as (s2 & Hs2 & Hp2 & Hsorted2).
  rewrite asObjects_perm in Hp1, Hp2 by done.
  assert (s1 = s2) as <-.
  { apply (StronglySorted_unique_strong selectorLe); [|done..|].
    - intros a b Ha Hb. apply selectorLe_antisym.
      intros y z -> ->. apply Hdistinct.
      + by rewrite <- Hp1.
      + rewrite (enumerableKeys_sameEntries k1 k2), <- Hp2 by done. done.
    - by rewrite Hp1, Hp2, (enumerableKeys_sameEntries k1 k2). }
  exists s1. split; [exact Hs1|]. split; [exact Hs2|].
  apply stepsOf_sameEntries; try done.
  intros k Hk. by rewrite <- Hp1.
Qed.

(** C1 (as amended).  Under the default, sorted strategy, [set(k1, v)]
    followed by [get(k2)] returns [v] for two keys that hold the same
    (selector, value) pairs on their enumerable fields, in whatever order
    the fields were declared, provided no two distinct symbol selectors of
    the key print alike; this for every state of the map and every
    value. *)
Theorem set_then_get_any_field_order (h : Heap) (this k1 k2 : loc)
  (m : CMapState) (o1 o2 : JSObject) (v : JSValue)
  (Hthis : h !! this = Some (CMapCell m))
  (Hgen : keyGenerator m = asValues)
  (Hk1 : h !! k1 = Some (ObjectCell o1))
  (Hk2 : h !! k2 = Some (ObjectCell o2))
  (Hwf1 : wfObject o1) (Hwf2 : wfObject o2)
  (Hsame : sameEntries o1 o2)
  (Hdistinct : distinctRenderings o1) :
  ((_ ← CMap.set this k1 v; CMap.get this k2) h).1 = Normal v.
Proof.
  destruct (asValues_sameEntries o1 o2 Hwf1 Hwf2 Hsame Hdistinct)
    as (keySeq & Hs1 & Hs2 & Hsteps).
  assert (keyGenerator m o1 = Normal keySeq) as G1 by (by rewrite Hgen).
  assert (keyGenerator m o2 = Normal keySeq) as G2 by (by rewrite Hgen).
  erewrite bind_run by (by eapply set_run).
  pose proof (get_after_set h this k1 m o1 keySeq Hthis Hk1 G1 v k2 o2 keySeq
                Hk2 G2) as Hget.
  rewrite (set_run h this k1 m o1 keySeq) in Hget by done.
  simpl in Hget. rewrite Hget. by rewrite decide_True.
Qed.

Lemma sameEntries_a1b2_b2a1 : sameEntries key_a1b2 key_b2a1.
Proof.
  intros e. unfold entries, key_a1b2, key_b2a1, literal. simpl.
  rewrite !elem_of_cons, !elem_of_nil. tauto.
Qed.

Lemma distinctRenderings_a1b2 : distinctRenderings key_a1b2.
Proof.
  intros y1 y2 H1 _ _. unfold enumerableKeys, key_a1b2, literal in H1.
  simpl in H1. rewrite !elem_of_cons, elem_of_nil in H1.
  by destruct H1 as [|[|]].
Qed.

Lemma set_then_get_any_field_order_witness :
  ((_ ← CMap.set 0%nat 1%nat (num 12); CMap.get 0%nat 2%nat) exampleHeap).1
  = Normal (num 12).
Proof.
  apply (set_then_get_any_field_order exampleHeap 0%nat 1%nat 2%nat
           (mkCMap asValues newNode) key_a1b2 key_b2a1);
    [reflexivity|reflexivity|reflexivity|reflexivity
    |apply wfObject_literal_examples|apply wfObject_literal_examples
    |apply sameEntries_a1b2_b2a1|apply distinctRenderings_a1b2].
Defined.

(** C1 (as stated) fails for two symbol selectors that print alike: the
    comparator ties on them, the stable sort leaves them in the order of
    declaration, and the two declaration orders of one set of fields walk
    two different paths.  With [s = Symbol('s')] and [s' = Symbol('s')],
    [set({[s]: 1, [s']: 2}, 12)] followed by [get({[s']: 2, [s]: 1})]
    returns [undefined]. *)
Lemma same_fields_different_paths :
  wfObject key_ss' /\ wfObject key_s's
  /\ sameEntries key_ss' key_s's
  /\ asValues key_ss' = Normal [PSymbol symbol_s; PSymbol symbol_s']
  /\ asValues key_s's = Normal [PSymbol symbol_s'; PSymbol symbol_s]
  /\ ((_ ← CMap.set 0%nat 5%nat (num 12); CMap.get 0%nat 6%nat) exampleHeap).1
     = Normal VUndefined
  /\ Normal VUndefined <> Normal (num 12).
Proof.
  split; [apply wfObject_literal_examples|].
  split; [apply wfObject_literal_examples|].
  split.
  { intros e. unfold entries, key_ss', key_s's, literal. simpl.
    rewrite !elem_of_cons, !elem_of_nil. tauto. }
  repeat (split; [reflexivity|]). discriminate.
Qed.

(** ** Sizes, [has] and [delete] (the part modelled from the specification) *)

Lemma slotAt_makeNodeLoop (key : JSObject) (keySeq : list PropertyKey)
  (root : Node) (q : list Step) :
  slotAt q (makeNodeLoop key keySeq root) = slotAt q root.
Proof.
  revert root q. induction keySeq as [|k ks IH]; intros root q; [done|].
  rewrite makeNodeLoop_cons. set (s := (k, getProp key k)).
  destruct q as [|t q]; [by destruct root|].
  rewrite !slotAt_cons, child_setChild.
  destruct (decide (t = s)) as [->|Hne]; [|done].
  rewrite IH. destruct (child root s); [done|apply slotAt_newNode].
Qed.

Lemma Map_get_In {K V : Type} `{EqDecision K} (map : JSMap K V) (k : K) (v : V) :
  Map_get map k = Some v -> In (k, v) map.
Proof.
  induction map as [|[k' v'] map IH]; simpl; [done|].
  destruct (decide (k' = k)) as [->|Hne].
  - intros [= ->]. by left.
  - intros Hget. right. by apply IH.
Qed.

Lemma isDead_child (node : Node) (s : Step) :
  SpecCMap.isDead node = true -> child node s = None.
Proof.
  unfold SpecCMap.isDead, SpecCMap.hasChildren, child.
  intros [_ Hno]%andb_true_iff. apply negb_true_iff in Hno.
  destruct (next node) as [nx|]; simpl; [|done].
  destruct (Map_get nx s.1) as [inner|] eqn:Hget; simpl; [|done].
  apply Map_get_In in Hget.
  destruct inner as [|e inner]; [done|].
  assert (existsb (fun e : PropertyKey * JSMap JSValue Node =>
                     match e.2 with [] => false | _ :: _ => true end) nx = true)
    as Hex by (apply List.existsb_exists; by eexists).
  congruence.
Qed.

Lemma isDead_slotAt (node : Node) (q : list Step) :
  SpecCMap.isDead node = true -> slotAt q node = notPresent.
Proof.
  intros Hdead. destruct q as [|t q].
  - unfold SpecCMap.isDead in Hdead.
    apply andb_true_iff in Hdead as [Hv _]. by apply bool_decide_eq_true in Hv.
  - by rewrite slotAt_cons, isDead_child.
Qed.

Lemma slotAt_not_dead (node : Node) (q : list Step) :
  slotAt q node <> notPresent -> SpecCMap.isDead node = false.
Proof.
  intros Hq. destruct (SpecCMap.isDead node) eqn:Hdead; [|done].
  by rewrite isDead_slotAt in Hq.
Qed.

Lemma value_setChild (node : Node) (s : Step) (c : Node) :
  value (setChild node s c) = value node.
Proof. reflexivity. Qed.

Lemma value_removeChild (node : Node) (s : Step) :
  value (removeChild node s) = value node.
Proof. reflexivity. Qed.

(** The value slots after a successful [delete]: the slot of the key is
    absent, and every other slot is as it was, pruning notwithstanding. *)
Lemma slotAt_deleted (p : list Step) (root : Node) (q : list Step) :
  slotAt p root <> notPresent ->
  slotAt q (SpecCMap.prune p (assignValue p notPresent root))
  = if decide (q = p) then notPresent else slotAt q root.
Proof.
  revert root q. induction p as [|s rest IH]; intros root q Hpresent.
  - simpl. destruct q as [|t q]; [done|].
    rewrite decide_False by done. rewrite !slotAt_cons. by destruct root.
  - rewrite slotAt_cons in Hpresent.
    rewrite assignValue_cons.
    destruct (child root s) as [c|] eqn:Hc; [|done].
    cbn [SpecCMap.prune]. rewrite child_setChild, decide_True by done.
    set (c' := SpecCMap.prune rest (assignValue rest notPresent c)).
    assert (forall q', slotAt q' c'
                       = if decide (q' = rest) then notPresent else slotAt q' c)
      as Hc' by (intros q'; by apply IH).
    destruct q as [|t q].
    + rewrite decide_False by done. by destruct (SpecCMap.isDead c').
    + rewrite (slotAt_cons t q root).
      destruct (SpecCMap.isDead c') eqn:Hdead.
      * rewrite slotAt_cons, child_removeChild, child_setChild.
        destruct (decide (t = s)) as [->|Hne].
        -- rewrite Hc.
           destruct (decide (q = rest)) as [->|Hq]; [by rewrite decide_True|].
           rewrite decide_False by congruence.
           specialize (Hc' q). rewrite isDead_slotAt, decide_False in Hc' by done.
           done.
        -- by rewrite decide_False by congruence.
      * rewrite slotAt_cons, !child_setChild.
        destruct (decide (t = s)) as [->|Hne].
        -- rewrite Hc, Hc'.
           destruct (decide (q = rest)) as [->|Hq]; [by rewrite decide_True|].
           by rewrite decide_False by congruence.
        -- by rewrite decide_False by congruence.
Qed.

(** Pruning leaves no dead weight behind, and neither does [set]. *)
Lemma Pruned_newNode : SpecCMap.Pruned newNode.
Proof. constructor. intros s c Hc. by rewrite child_newNode in Hc. Qed.

Lemma Pruned_children (node : Node) (s : Step) (c : Node) :
  SpecCMap.Pruned node -> child node s = Some c ->
  SpecCMap.isDead c = false /\ SpecCMap.Pruned c.
Proof. intros [node' H]. apply H. Qed.

Lemma Pruned_deleted (p : list Step) (root : Node) :
  SpecCMap.Pruned root -> slotAt p root <> notPresent ->
  SpecCMap.Pruned (SpecCMap.prune p (assignValue p notPresent root)).
Proof.
  revert root. induction p as [|s rest IH]; intros root Hroot Hpresent.
  - simpl. constructor. intros s c Hc.
    apply (Pruned_children root s c Hroot). by destruct root.
  - rewrite slotAt_cons in Hpresent. rewrite assignValue_cons.
    destruct (child root s) as [c|] eqn:Hc; [|done].
    destruct (Pruned_children root s c Hroot Hc) as [_ Hpc].
    cbn [SpecCMap.prune]. rewrite child_setChild, decide_True by done.
    set (c' := SpecCMap.prune rest (assignValue rest notPresent c)).
    assert (SpecCMap.Pruned c') as Hc' by (by apply IH).
    destruct (SpecCMap.isDead c') eqn:Hdead; constructor; intros t d.
    + rewrite child_removeChild, child_setChild.
      destruct (decide (t = s)); [done|]. by apply Pruned_children.
    + rewrite !child_setChild.
      destruct (decide (t = s)); [by intros [= <-]|]. by apply Pruned_children.
Qed.

Lemma Pruned_rootAfterSet (key : JSObject) (keySeq : list PropertyKey)
  (v : JSValue) (root : Node) :
  SpecCMap.Pruned root -> SpecCMap.Pruned (rootAfterSet key keySeq v root).
Proof.
  unfold rootAfterSet. revert root.
  induction keySeq as [|k ks IH]; intros root Hroot.
  - simpl. constructor. intros s c Hc.
    apply (Pruned_children root s c Hroot). by destruct root.
  - rewrite makeNodeLoop_cons.
    change (stepsOf key (k :: ks)) with ((k, getProp key k) :: stepsOf key ks).
    set (s := (k, getProp key k)).
    rewrite assignValue_cons, child_setChild, decide_True by done.
    constructor. intros t d. rewrite !child_setChild.
    destruct (decide (t = s)) as [->|Hne]; [|by apply Pruned_children].
    intros [= <-]. split.
    + apply (slotAt_not_dead _ (stepsOf key ks)).
      pose proof (slotAt_rootAfterSet key ks v (default newNode (child root s))
                    (stepsOf key ks)) as Hslot.
      unfold rootAfterSet in Hslot. rewrite Hslot, decide_True by done. done.
    + apply IH. destruct (child root s) as [c|] eqn:Hc; simpl.
      * by apply (Pruned_children root s c).
      * apply Pruned_newNode.
Qed.

Section SpecMethods.
Context (m : SpecCMap.t) (key : JSObject) (keySeq : list PropertyKey).
Hypothesis Hgen : SpecCMap.keyGenerator m key = Normal keySeq.
Let p := stepsOf key keySeq.

Lemma spec_get_run :
  SpecCMap.get m key = Normal (slotValue (slotAt p (SpecCMap.values m))).
Proof.
  unfold SpecCMap.get. rewrite Hgen. cbn [mbind Completion_bind].
  rewrite findNodeLoop_walk. unfold slotAt, p.
  destruct (walk _ _) as [node|]; [|done]. by destruct (value node).
Qed.

Lemma spec_has_run :
  SpecCMap.has m key
  = Normal (bool_decide (slotAt p (SpecCMap.values m) <> notPresent)).
Proof.
  unfold SpecCMap.has. rewrite Hgen. cbn [mbind Completion_bind].
  rewrite findNodeLoop_walk. unfold slotAt, p.
  destruct (walk _ _) as [node|]; [|done]. by destruct (value node).
Qed.

Lemma spec_set_run (v : JSValue) :
  SpecCMap.set m key v
  = Normal (SpecCMap.mk (SpecCMap.keyGenerator m)
              (rootAfterSet key keySeq v (SpecCMap.values m))
              (match slotAt p (SpecCMap.values m) with
               | notPresent => SpecCMap.size m + 1
               | Stored _ => SpecCMap.size m
               end)).
Proof.
  unfold SpecCMap.set. rewrite Hgen. cbn [mbind Completion_bind].
  by rewrite slotAt_makeNodeLoop.
Qed.

Lemma spec_delete_absent :
  slotAt p (SpecCMap.values m) = notPresent ->
  SpecCMap.delete m key = Normal (false, m).
Proof.
  unfold SpecCMap.delete. rewrite Hgen. cbn [mbind Completion_bind].
  rewrite findNodeLoop_walk. unfold slotAt, p.
  destruct (walk _ _) as [node|]; [|done]. by intros ->.
Qed.

Lemma spec_delete_present :
  slotAt p (SpecCMap.values m) <> notPresent ->
  SpecCMap.delete m key
  = Normal (true,
            SpecCMap.mk (SpecCMap.keyGenerator m)
              (SpecCMap.prune p (assignValue p notPresent (SpecCMap.values m)))
              (SpecCMap.size m - 1)).
Proof.
  unfold SpecCMap.delete. rewrite Hgen. cbn [mbind Completion_bind].
  rewrite findNodeLoop_walk. unfold slotAt, p.
  destruct (walk _ _) as [node|]; [|done]. by destruct (value node).
Qed.

End SpecMethods.

(** The [get] modelled over the state with a counter is the [get] of the
    source. *)
Lemma spec_get_agrees (h : Heap) (this key : loc) (m : CMapState)
  (obj : JSObject) (z : Z) :
  h !! this = Some (CMapCell m) -> h !! key = Some (ObjectCell obj) ->
  (CMap.get this key h).1
  = SpecCMap.get (SpecCMap.mk (keyGenerator m) (values m) z) obj.
Proof.
  intros Hthis Hkey. destruct (keyGenerator m obj) as [ks|e] eqn:Hgen.
  - rewrite (get_run h this key m obj ks) by done.
    by rewrite (spec_get_run _ obj ks).
  - unfold CMap.get, CMap.findNode, mbind, M_bind, readCMap, readObject,
      liftCompletion, SpecCMap.get.
    rewrite Hthis, Hkey. simpl. by rewrite Hgen.
Qed.

(** C3.  [delete(key)] returns false and leaves the map as it is when the
    key has no node or its slot is absent.  Otherwise it returns true, the
    size is one less, the key is absent afterwards ([get] returns
    [undefined], [has] returns false), every other key reads as before,
    and no node without a value and without children is left below the
    root if there was none before.  On a new map with the default
    strategy holding [{a:1,b:2}] and [{a:1,b:3}], deleting [{b:2,a:1}]
    returns true, leaves size 1, makes [{a:1,b:2}] absent, and
    [get({a:1,b:3})] still returns its value. *)
Theorem delete_removes_one_key (m : SpecCMap.t) (key : JSObject)
  (keySeq : list PropertyKey)
  (Hgen : SpecCMap.keyGenerator m key = Normal keySeq) :
  (slotAt (stepsOf key keySeq) (SpecCMap.values m) = notPresent ->
   SpecCMap.delete m key = Normal (false, m))
  /\ (slotAt (stepsOf key keySeq) (SpecCMap.values m) <> notPresent ->
      exists m',
        SpecCMap.delete m key = Normal (true, m')
        /\ SpecCMap.size m' = SpecCMap.size m - 1
        /\ SpecCMap.get m' key = Normal VUndefined
        /\ SpecCMap.has m' key = Normal false
        /\ (forall q, q <> stepsOf key keySeq ->
              slotAt q (SpecCMap.values m') = slotAt q (SpecCMap.values m))
        /\ (forall key' keySeq',
              SpecCMap.keyGenerator m key' = Normal keySeq' ->
              stepsOf key' keySeq' <> stepsOf key keySeq ->
              SpecCMap.get m' key' = SpecCMap.get m key')
        /\ (SpecCMap.Pruned (SpecCMap.values m) ->
            SpecCMap.Pruned (SpecCMap.values m')))
  /\ (let m0 := SpecCMap.run [SpecCMap.OpSet key_a1b2 (num 1);
                              SpecCMap.OpSet key_a1b3 (num 11)]
                  (SpecCMap.empty asValues) in
      exists m',
        SpecCMap.delete m0 key_b2a1 = Normal (true, m')
        /\ SpecCMap.size m' = 1
        /\ SpecCMap.get m' key_a1b2 = Normal VUndefined
        /\ SpecCMap.has m' key_a1b2 = Normal false
        /\ SpecCMap.get m' key_a1b3 = Normal (num 11)).
Proof.
  split; [by apply spec_delete_absent|]. split.
  - intros Hpresent. eexists. split; [by apply spec_delete_present|].
    cbn [SpecCMap.size SpecCMap.values SpecCMap.keyGenerator].
    assert (forall q,
              slotAt q (SpecCMap.prune (stepsOf key keySeq)
                          (assignValue (stepsOf key keySeq) notPresent
                             (SpecCMap.values m)))
              = if decide (q = stepsOf key keySeq) then notPresent
                else slotAt q (SpecCMap.values m)) as Hslot
      by (intros q; by apply slotAt_deleted).
    split; [done|]. split.
    { rewrite (spec_get_run _ key keySeq) by done.
      cbn [SpecCMap.values]. by rewrite Hslot, decide_True. }
    split.
    { rewrite (spec_has_run _ key keySeq) by done.
      cbn [SpecCMap.values]. rewrite Hslot, decide_True by done.
      by rewrite bool_decide_eq_false_2 by (intros H; by apply H). }
    split; [intros q Hq; by rewrite Hslot, decide_False|]. split.
    { intros key' keySeq' Hgen' Hne.
      rewrite (spec_get_run _ key' keySeq'), (spec_get_run m key' keySeq') by done.
      cbn [SpecCMap.values]. by rewrite Hslot, decide_False. }
    intros Hpruned. by apply Pruned_deleted.
  - eexists. repeat split; reflexivity.
Qed.

Lemma delete_removes_one_key_witness :
  SpecCMap.delete (SpecCMap.empty asValues) key_a1 =
    Normal (false, SpecCMap.empty asValues)
  /\ exists m',
       SpecCMap.delete
         (SpecCMap.run [SpecCMap.OpSet key_a1 (num 9)] (SpecCMap.empty asValues))
         key_a1 = Normal (true, m')
       /\ SpecCMap.size m' = 0.
Proof.
  split.
  - destruct (delete_removes_one_key (SpecCMap.empty asValues) key_a1
                [PString "a"] eq_refl) as (H & _ & _).
    apply H. reflexivity.
  - destruct (delete_removes_one_key
                (SpecCMap.run [SpecCMap.OpSet key_a1 (num 9)]
                   (SpecCMap.empty asValues))
                key_a1 [PString "a"] eq_refl) as (_ & H & _).
    destruct H as (m' & Hdel & Hsize & _); [by vm_compute|].
    exists m'. split; [exact Hdel|]. rewrite Hsize. reflexivity.
Defined.

(** *** The size counter *)

Section SizeInvariant.
Context (g : KeyGenerator).

Lemma Counted_empty : Counted g [] (SpecCMap.empty g).
Proof.
  split; [done|]. exists []. split; [constructor|]. split.
  - intros p. cbn [SpecCMap.empty SpecCMap.values]. rewrite slotAt_newNode.
    split; [by intros ?%elem_of_nil|done].
  - split; [done|]. by intros p ?%elem_of_nil.
Qed.

Lemma Counted_weaken (S S' : list (list Step)) (m : SpecCMap.t) :
  (forall p, p ∈ S -> p ∈ S') -> Counted g S m -> Counted g S' m.
Proof.
  intros Hsub (Hg & L & Hnd & Hmem & Hsize & HS).
  split; [done|]. exists L. repeat split; try done; try apply Hmem.
  intros p Hp. by apply Hsub, HS.
Qed.

Lemma Counted_set (S : list (list Step)) (m : SpecCMap.t) (key : JSObject)
  (v : JSValue) (keySeq : list PropertyKey) :
  g key = Normal keySeq -> Counted g S m ->
  exists m', SpecCMap.set m key v = Normal m'
             /\ Counted g (S ++ [stepsOf key keySeq]) m'.
Proof.
  intros Hkey (Hg & L & Hnd & Hmem & Hsize & HS).
  assert (SpecCMap.keyGenerator m key = Normal keySeq) as Hgen by (by rewrite Hg).
  eexists. split; [by apply spec_set_run|].
  split; [done|]. cbn [SpecCMap.values SpecCMap.size].
  set (p := stepsOf key keySeq).
  assert (forall q, slotAt q (rootAfterSet key keySeq v (SpecCMap.values m))
                      <> notPresent
                    <-> q = p \/ q ∈ L) as Hmem'.
  { intros q. rewrite slotAt_rootAfterSet. fold p.
    destruct (decide (q = p)) as [->|Hq].
    - split; [by left|done].
    - rewrite <- Hmem. split; [by right|by intros [|]]. }
  destruct (slotAt p (SpecCMap.values m)) eqn:Hslot.
  - assert (p ∉ L) as Hnotin by (rewrite Hmem; intros H; by apply H).
    exists (p :: L). split; [by constructor|]. split.
    { intros q. rewrite Hmem', elem_of_cons. done. }
    split; [rewrite Hsize; simpl length; lia|].
    intros q [->|Hq]%elem_of_cons; apply elem_of_app;
      [right; by apply list_elem_of_singleton|left; by apply HS].
  - assert (p ∈ L) as Hin by (rewrite Hmem, Hslot; done).
    exists L. split; [done|]. split.
    { intros q. rewrite Hmem'. split; [by right|by intros [->|]]. }
    split; [done|]. intros q Hq. apply elem_of_app. left. by apply HS.
Qed.

Lemma Counted_delete (S : list (list Step)) (m : SpecCMap.t) (key : JSObject)
  (keySeq : list PropertyKey) :
  g key = Normal keySeq -> Counted g S m ->
  exists b m', SpecCMap.delete m key = Normal (b, m') /\ Counted g S m'.
Proof.
  intros Hkey HC. pose proof HC as (Hg & L & Hnd & Hmem & Hsize & HS).
  assert (SpecCMap.keyGenerator m key = Normal keySeq) as Hgen by (by rewrite Hg).
  set (p := stepsOf key keySeq).
  destruct (decide (slotAt p (SpecCMap.values m) = notPresent)) as [Habsent|Hpresent].
  - exists false, m. split; [by apply (spec_delete_absent m key keySeq)|done].
  - exists true. eexists. split; [by apply (spec_delete_present m key keySeq)|].
    split; [done|]. cbn [SpecCMap.values SpecCMap.size]. fold p.
    exists (filter (fun q => q <> p) L).
    assert (forall q, q ∈ filter (fun q => q <> p) L
                      <-> slotAt q (SpecCMap.prune p
                                      (assignValue p notPresent (SpecCMap.values m)))
                          <> notPresent) as Hmem'.
    { intros q. rewrite list_elem_of_filter, slotAt_deleted by done.
      destruct (decide (q = p)) as [->|Hq].
      - split; [by intros [? _]|done].
      - rewrite Hmem. split; [by intros [_ ?]|done]. }
    split; [by apply NoDup_filter|]. split; [exact Hmem'|]. split.
    + assert (L ≡ₚ p :: filter (fun q => q <> p) L) as Hperm.
      { apply NoDup_Permutation; [done| |].
        - constructor; [|by apply NoDup_filter].
          rewrite list_elem_of_filter. by intros [? _].
        - intros q. rewrite elem_of_cons, list_elem_of_filter.
          destruct (decide (q = p)) as [->|Hq].
          + split; [by left|]. intros _. by apply Hmem.
          + split; [by right|by intros [|[_ ?]]]. }
      rewrite Hsize, (Permutation_length Hperm). simpl length. lia.
    + intros q [_ Hq]%list_elem_of_filter. by apply HS.
Qed.

Lemma keysSet_cons (op : SpecCMap.Op) (ops : list SpecCMap.Op) :
  SpecCMap.keysSet g (op :: ops)
  = (SpecCMap.keysSet g [op] ++ SpecCMap.keysSet g ops)%list.
Proof.
  destruct op as [key v|key]; simpl; [|done]. by destruct (g key).
Qed.

Lemma Counted_apply (S : list (list Step)) (m : SpecCMap.t) (op : SpecCMap.Op) :
  Counted g S m -> Counted g (S ++ SpecCMap.keysSet g [op]) (SpecCMap.apply m op).
Proof.
  intros HC. pose proof HC as (Hg & _).
  destruct op as [key v|key]; simpl.
  - destruct (g key) as [keySeq|e] eqn:Hkey.
    + destruct (Counted_set S m key v keySeq Hkey HC) as (m' & -> & HC'). done.
    + unfold SpecCMap.set. rewrite Hg, Hkey. simpl. by rewrite app_nil_r.
  - rewrite app_nil_r. destruct (g key) as [keySeq|e] eqn:Hkey.
    + destruct (Counted_delete S m key keySeq Hkey HC) as (b & m' & -> & HC'). done.
    + unfold SpecCMap.delete. rewrite Hg, Hkey. done.
Qed.

Lemma Counted_run (ops : list SpecCMap.Op) (S : list (list Step)) (m : SpecCMap.t) :
  Counted g S m -> Counted g (S ++ SpecCMap.keysSet g ops) (SpecCMap.run ops m).
Proof.
  revert S m. induction ops as [|op ops IH]; intros S m HC.
  - simpl. by rewrite app_nil_r.
  - rewrite keysSet_cons, app_assoc. apply IH. by apply Counted_apply.
Qed.

End SizeInvariant.

(** C4.  After any sequence of [set] and [delete] calls on a new map, the
    size is the number of distinct linearized keys whose value slot is
    present: there is a duplicate-free list of exactly those key
    sequences, and the size is its length.  A key satisfies [has] exactly
    when its sequence is one of them.  The size is never negative, and it
    never exceeds the number of distinct linearized keys the [set] calls
    of the sequence were given. *)
Theorem size_counts_present_keys (g : KeyGenerator) (ops : list SpecCMap.Op) :
  let m := SpecCMap.run ops (SpecCMap.empty g) in
  (exists L : list (list Step),
     NoDup L
     /\ (forall p, p ∈ L <-> slotAt p (SpecCMap.values m) <> notPresent)
     /\ (forall key keySeq, g key = Normal keySeq ->
           (SpecCMap.has m key = Normal true <-> stepsOf key keySeq ∈ L))
     /\ SpecCMap.size m = Z.of_nat (length L))
  /\ 0 <= SpecCMap.size m
  /\ SpecCMap.size m <= Z.of_nat (length (remove_dups (SpecCMap.keysSet g ops))).
Proof.
  intros m.
  destruct (Counted_run g ops [] (SpecCMap.empty g) (Counted_empty g))
    as (Hg & L & Hnd & Hmem & Hsize & HS).
  fold m in Hg, Hmem, Hsize. simpl in HS.
  split; [|split].
  - exists L. split; [done|]. split; [done|]. split; [|done].
    intros key keySeq Hkey.
    rewrite (spec_has_run m key keySeq) by (by rewrite Hg).
    rewrite Hmem. split.
    + intros [= H]. by apply bool_decide_eq_true in H.
    + intros H. f_equal. by apply bool_decide_eq_true.
  - rewrite Hsize. lia.
  - rewrite Hsize. apply inj_le, submseteq_length, NoDup_submseteq; [done|].
    intros p Hp. apply elem_of_remove_dups. by apply HS.
Qed.

Lemma size_counts_present_keys_witness :
  let m := SpecCMap.run [SpecCMap.OpSet key_a1b2 (num 1);
                         SpecCMap.OpSet key_b2a1 (num 3);
                         SpecCMap.OpSet key_a1 (num 9);
                         SpecCMap.OpDelete key_a1b3;
                         SpecCMap.OpDelete key_a1]
             (SpecCMap.empty asValues) in
  SpecCMap.size m = 1 /\ 0 <= SpecCMap.size m
  /\ SpecCMap.size m <= 2
  /\ exists L : list (list Step),
       SpecCMap.size m = Z.of_nat (length L)
       /\ (SpecCMap.has m key_a1b2 = Normal true
           <-> [(PString "a", num 1); (PString "b", num 2)] ∈ L).
Proof.
  intros m.
  destruct (size_counts_present_keys asValues
              [SpecCMap.OpSet key_a1b2 (num 1);
               SpecCMap.OpSet key_b2a1 (num 3);
               SpecCMap.OpSet key_a1 (num 9);
               SpecCMap.OpDelete key_a1b3;
               SpecCMap.OpDelete key_a1])
    as ((L & _ & _ & Hhas & Hsize) & Hpos & Hle).
  split; [reflexivity|]. split; [exact Hpos|]. split; [exact Hle|].
  exists L. split; [exact Hsize|].
  apply (Hhas key_a1b2 [PString "a"; PString "b"]). reflexivity.
Defined.

(** * Further properties of the code *)

(** ** The comparator *)

(** X1.  [compareScalars] returns a number for every pair of values: none
    of its [throw] statements is reached.  When one of the two values is
    not a scalar the number returned is [NaN] or an infinity. *)
Theorem compareScalars_always_returns (a b : JSValue) :
  exists n, compareScalars a b = Normal n
            /\ (isScalar a && isScalar b = false -> nonFinite n = true).
Proof. destruct a, b; eexists; (split; [reflexivity|by intros]). Qed.

Lemma compareScalars_always_returns_witness :
  exists n, compareScalars (VObject 7%nat) VNull = Normal n /\ nonFinite n = true.
Proof.
  destruct (compareScalars_always_returns (VObject 7%nat) VNull) as (n & Hn & Hnf).
  exists n. split; [exact Hn|]. apply Hnf. reflexivity.
Defined.

Lemma compareStrings_zero (s t : string) : compareStrings s t = Finite 0 -> s = t.
Proof.
  intros H. apply String.compare_eq_iff.
  pose proof (sign_compareStrings s t) as Hs. rewrite H in Hs.
  cbn [sign] in Hs. by injection Hs as <-.
Qed.

Lemma number_sub_zero (x y : number) : number_sub x y = Finite 0 -> x = y.
Proof.
  destruct x as [| |p|], y as [| |q|]; cbn [number_sub]; try done.
  intros [= H]. f_equal. lia.
Qed.

Lemma number_sub_diag (z : Z) : number_sub (Finite z) (Finite z) = Finite 0.
Proof. cbn [number_sub]. f_equal. lia. Qed.

Lemma compareStrings_diag (s : string) : compareStrings s s = Finite 0.
Proof.
  unfold compareStrings, string_lt, String.ltb. by rewrite string_compare_refl.
Qed.

(** X2.  The comparator returns zero for two values only if they are the
    same value or two symbols that print alike; and it returns zero for a
    scalar compared with itself, unless the scalar is a number that is not
    finite. *)
Theorem compareScalars_zero (a b : JSValue) :
  (compareScalars a b = Normal (Finite 0) ->
   a = b \/ exists y z, a = VSymbol y /\ b = VSymbol z
                        /\ Symbol_toString y = Symbol_toString z)
  /\ (finiteScalar a -> compareScalars a a = Normal (Finite 0)).
Proof.
  split.
  - destruct a as [| |c|x|s|y|l], b as [| |c'|x'|s'|y'|l'];
      try (intros H; by cbv in H); try (by left).
    + rewrite compareScalars_numbers. intros [= H]. left.
      by rewrite (number_sub_zero x x' H).
    + rewrite compareScalars_strings. intros [= H]. left.
      by rewrite (compareStrings_zero s s' H).
    + rewrite compareScalars_symbols. intros [= H]. right.
      exists y, y'. repeat split.
      exact (compareStrings_zero (Symbol_toString y) (Symbol_toString y') H).
  - destruct a as [| |c|[| |z|]|s|y|l]; try done; intros _.
    + by rewrite compareScalars_numbers, number_sub_diag.
    + by rewrite compareScalars_strings, compareStrings_diag.
    + by rewrite compareScalars_symbols, compareStrings_diag.
Qed.

Lemma compareScalars_zero_witness :
  compareScalars (VString "a") (VString "a") = Normal (Finite 0)
  /\ (VSymbol symbol_s = VSymbol symbol_s'
      \/ exists y z, VSymbol symbol_s = VSymbol y /\ VSymbol symbol_s' = VSymbol z
                     /\ Symbol_toString y = Symbol_toString z).
Proof.
  destruct (compareScalars_zero (VString "a") (VString "a")) as [_ H1].
  destruct (compareScalars_zero (VSymbol symbol_s) (VSymbol symbol_s')) as [H2 _].
  split; [apply H1; exact I|apply H2; reflexivity].
Defined.

(** ** The sorted strategy *)

Lemma selectorLe_keyBefore (a b : PropertyKey) : selectorLe a b -> keyBefore a b.
Proof.
  unfold selectorLe, scalarLe.
  destruct a as [s|y], b as [t|z]; cbn [keyValue keyBefore].
  - rewrite compareSign_strings.
    generalize (String.compare s t). intros c [[= ->]|[= ->]]; done.
  - done.
  - intros [H|H]; by cbv in H.
  - rewrite compareSign_symbols.
    generalize (String.compare (Symbol_toString y) (Symbol_toString z)).
    intros c [[= ->]|[= ->]]; done.
Qed.

Lemma StronglySorted_weaken {A : Type} (R R' : A -> A -> Prop) (l : list A) :
  (forall x y, R x y -> R' x y) -> StronglySorted R l -> StronglySorted R' l.
Proof.
  intros Himpl. induction 1 as [|x l Hl IH Hall]; constructor; [done|].
  eapply Forall_impl; [exact Hall|]. auto.
Qed.

(** X3.  The sorted strategy returns for every key, and what it returns
    is the enumerable selectors of the key, each once, in order: strings
    before symbols, strings in lexicographic order, symbols in the
    lexicographic order of their printed forms. *)
Theorem asValues_sorted (obj : JSObject) (Hwf : wfObject obj) :
  exists keySeq,
    asValues obj = Normal keySeq
    /\ keySeq ≡ₚ enumerableKeys obj
    /\ NoDup keySeq
    /\ StronglySorted keyBefore keySeq.
Proof.
  destruct (Array_sort_selectors (asObjects obj)) as (sorted & Hs & Hp & Hsorted).
  rewrite asObjects_perm in Hp by done.
  exists sorted. split; [exact Hs|]. split; [exact Hp|]. split.
  - rewrite Hp. by apply NoDup_enumerableKeys.
  - eapply StronglySorted_weaken; [apply selectorLe_keyBefore|exact Hsorted].
Qed.

Lemma asValues_sorted_witness :
  exists keySeq,
    asValues test_obj_s_d = Normal keySeq
    /\ keySeq ≡ₚ enumerableKeys test_obj_s_d
    /\ NoDup keySeq
    /\ StronglySorted keyBefore keySeq.
Proof.
  apply (asValues_sorted test_obj_s_d).
  apply (bool_decide_unpack _). by vm_compute.
Defined.

(** X4.  The sorted strategy is a canonical form of the selectors: two
    keys with the same enumerable selectors get the same sequence,
    whatever the order the fields were written in and whatever their
    values, provided no two distinct symbol selectors print alike. *)
Theorem asValues_canonical (k1 k2 : JSObject)
  (Hwf1 : wfObject k1) (Hwf2 : wfObject k2)
  (Hsame : forall k, k ∈ enumerableKeys k1 <-> k ∈ enumerableKeys k2)
  (Hdistinct : distinctRenderings k1) :
  asValues k1 = asValues k2.
Proof.
  destruct (Array_sort_selectors (asObjects k1)) as (s1 & Hs1 & Hp1 & Hsorted1).
  destruct (Array_sort_selectors (asObjects k2)) as (s2 & Hs2 & Hp2 & Hsorted2).
  rewrite asObjects_perm in Hp1, Hp2 by done.
  assert (enumerableKeys k1 ≡ₚ enumerableKeys k2) as Hperm
    by (apply NoDup_Permutation; [by apply NoDup_enumerableKeys..|done]).
  unfold asValues. change (fun a b => compareScalars (keyValue a) (keyValue b))
    with compareSelectors.
  rewrite Hs1, Hs2. f_equal.
  apply (StronglySorted_unique_strong selectorLe); [|done..|].
  - intros a b Ha Hb. apply selectorLe_antisym.
    intros y z -> ->. apply Hdistinct.
    + by rewrite <- Hp1.
    + by rewrite Hperm, <- Hp2.
  - by rewrite Hp1, Hp2.
Qed.

Lemma asValues_canonical_witness : asValues key_a1b2 = asValues key_a2b1.
Proof.
  apply asValues_canonical.
  - apply (bool_decide_unpack _). by vm_compute.
  - apply (bool_decide_unpack _). by vm_compute.
  - intros k. unfold enumerableKeys, key_a1b2, key_a2b1, literal. simpl. tauto.
  - exact distinctRenderings_a1b2.
Defined.

(** ** [getOrMaybeAdd] *)

(** X5.  [getOrMaybeAdd(map, a, makeEl)] returns the element the map
    holds for [a] afterwards; it leaves every other key of the map as it
    was; when the map already holds an element for [a] it returns that
    element and does not change the map; otherwise the element is the
    one [makeEl] makes. *)
Theorem getOrMaybeAdd_spec {K V : Type} `{EqDecision K}
  (map : JSMap K V) (a : K) (makeEl : unit -> V) :
  let '(el, map') := getOrMaybeAdd map a makeEl in
  Map_get map' a = Some el
  /\ (forall a', a' <> a -> Map_get map' a' = Map_get map a')
  /\ (forall e, Map_get map a = Some e -> el = e /\ map' = map)
  /\ (Map_get map a = None -> el = makeEl tt).
Proof.
  unfold getOrMaybeAdd. destruct (Map_get map a) as [e|] eqn:Hget.
  - split; [done|]. split; [done|]. split; [|done].
    by intros e' [= ->].
  - split; [apply Map_get_set_eq|]. split; [|done].
    intros a' Hne. by apply Map_get_set_ne.
Qed.

Lemma getOrMaybeAdd_spec_witness :
  getOrMaybeAdd [(1%nat, "one")] 2%nat (fun _ => "new")
  = ("new", [(1%nat, "one"); (2%nat, "new")])
  /\ getOrMaybeAdd [(1%nat, "one")] 1%nat (fun _ => "new") = ("one", [(1%nat, "one")]).
Proof.
  pose proof (getOrMaybeAdd_spec [(1%nat, "one")] 2%nat (fun _ => "new")) as H2.
  pose proof (getOrMaybeAdd_spec [(1%nat, "one")] 1%nat (fun _ => "new")) as H1.
  destruct (getOrMaybeAdd [(1%nat, "one")] 2%nat (fun _ => "new")) as [el2 m2] eqn:E2.
  destruct (getOrMaybeAdd [(1%nat, "one")] 1%nat (fun _ => "new")) as [el1 m1] eqn:E1.
  destruct H2 as (_ & _ & _ & Hnew). destruct H1 as (_ & _ & Hold & _).
  destruct (Hold "one" eq_refl) as [-> ->].
  rewrite (Hnew eq_refl). split; [|reflexivity].
  injection E2 as _ <-. reflexivity.
Defined.

(** ** The methods of [CMap] *)

Lemma get_ext (h h' : Heap) (this key : loc) :
  h !! this = h' !! this -> h !! key = h' !! key ->
  (CMap.get this key h).1 = (CMap.get this key h').1.
Proof.
  intros Hthis Hkey.
  unfold CMap.get, CMap.findNode, mbind, M_bind, readCMap, readObject,
    liftCompletion.
  rewrite <- Hthis.
  destruct (h !! this) as [[o|m]|]; try done.
  rewrite <- Hkey.
  destruct (h !! key) as [[o|m']|]; try done.
  destruct (keyGenerator m o) as [ks|e]; [|done].
  unfold mret, M_ret.
  destruct (findNodeLoop o ks (values m)) as [node|]; [|done].
  by destruct (value node).
Qed.

(** X6.  [new CMap(generator)] makes a map at a location the heap did
    not use, leaves every object where it was, and the map is empty:
    [get] returns [undefined] for every key on which the strategy (the
    sorted one, when none is given) returns a sequence. *)
Theorem new_map_is_empty (h : Heap) (generator : option KeyGenerator)
  (key : loc) (obj : JSObject) (keySeq : list PropertyKey)
  (Hkey : h !! key = Some (ObjectCell obj))
  (Hgen : default asValues generator obj = Normal keySeq) :
  exists this,
    (CMap.new generator h).1 = Normal this
    /\ h !! this = None
    /\ (forall l, l <> this -> (CMap.new generator h).2 !! l = h !! l)
    /\ (CMap.get this key (CMap.new generator h).2).1 = Normal VUndefined.
Proof.
  exists (fresh (dom h)). unfold CMap.new. cbn [fst snd].
  assert (h !! fresh (dom h) = None) as Hfresh
    by (apply not_elem_of_dom, is_fresh).
  split; [done|]. split; [done|]. split.
  - intros l Hne. by rewrite lookup_insert_ne.
  - erewrite get_run; [|apply lookup_insert_eq| |exact Hgen].
    + cbn [fst values]. by rewrite slotAt_newNode.
    + rewrite lookup_insert_ne; [done|]. intros Heq. congruence.
Qed.

Lemma new_map_is_empty_witness :
  exists this,
    (CMap.new None testHeap).1 = Normal this
    /\ testHeap !! this = None
    /\ (CMap.get this 1%nat (CMap.new None testHeap).2).1 = Normal VUndefined.
Proof.
  destruct (new_map_is_empty testHeap None 1%nat key_a1b2
              [PString "a"; PString "b"] eq_refl eq_refl)
    as (this & Hnew & Hfresh & _ & Hget).
  by exists this.
Defined.

(** X7.  Reading after writing: on any map, [get(k')] after [set(k, v)]
    returns [v] when [k'] walks the steps of [k] (the same selectors in
    the same order with the same values), and otherwise what [get(k')]
    returned before the [set]. *)
Theorem get_after_set_reads (h : Heap) (this key key' : loc) (m : CMapState)
  (obj obj' : JSObject) (keySeq keySeq' : list PropertyKey) (v : JSValue)
  (Hthis : h !! this = Some (CMapCell m))
  (Hkey : h !! key = Some (ObjectCell obj))
  (Hgen : keyGenerator m obj = Normal keySeq)
  (Hkey' : h !! key' = Some (ObjectCell obj'))
  (Hgen' : keyGenerator m obj' = Normal keySeq') :
  (CMap.get this key' (CMap.set this key v h).2).1
  = if decide (stepsOf obj' keySeq' = stepsOf obj keySeq)
    then Normal v
    else (CMap.get this key' h).1.
Proof.
  rewrite (get_after_set h this key m obj keySeq Hthis Hkey Hgen v key' obj' keySeq')
    by done.
  destruct (decide _); [done|].
  by rewrite (get_run h this key' m obj' keySeq').
Qed.

Lemma get_after_set_reads_witness :
  (CMap.get 0%nat 2%nat (CMap.set 0%nat 1%nat (num 5) testHeap).2).1
  = Normal (num 5)
  /\ (CMap.get 0%nat 4%nat (CMap.set 0%nat 1%nat (num 5) testHeap).2).1
     = (CMap.get 0%nat 4%nat testHeap).1.
Proof.
  split.
  - exact (get_after_set_reads testHeap 0%nat 1%nat 2%nat
             (mkCMap asValues newNode) key_a1b2 key_b2a1
             [PString "a"; PString "b"] [PString "a"; PString "b"] (num 5)
             eq_refl eq_refl eq_refl eq_refl eq_refl).
  - exact (get_after_set_reads testHeap 0%nat 1%nat 4%nat
             (mkCMap asValues newNode) key_a1b2 key_a1
             [PString "a"; PString "b"] [PString "a"] (num 5)
             eq_refl eq_refl eq_refl eq_refl eq_refl).
Defined.

(** X8.  Last write wins, key by key: after the loop
    [for (const [k, v] of kvs) map.set(k, v)], which runs to its end,
    [get(k')] returns the value of the last [set] whose key walks the
    steps of [k'], and what it returned before the loop when there is
    none. *)
Theorem setEach_last_write_wins (ws : list Write) (h : Heap) (this : loc)
  (m : CMapState) (key' : loc) (obj' : JSObject) (keySeq' : list PropertyKey)
  (Hthis : h !! this = Some (CMapCell m))
  (Hws : Forall (fun w => h !! write_loc w = Some (ObjectCell (write_key w))
                          /\ keyGenerator m (write_key w) = Normal (write_seq w)) ws)
  (Hkey' : h !! key' = Some (ObjectCell obj'))
  (Hgen' : keyGenerator m obj' = Normal keySeq') :
  (setEach this (writeArgs <$> ws) h).1 = Normal tt
  /\ (CMap.get this key' (setEach this (writeArgs <$> ws) h).2).1
     = Normal (match lastWrite (writePath <$> ws) (stepsOf obj' keySeq') with
               | Some v => v
               | None => slotValue (slotAt (stepsOf obj' keySeq') (values m))
               end).
Proof.
  revert h m Hthis Hws Hkey' Hgen'.
  induction ws as [|w ws IH]; intros h m Hthis Hws Hkey' Hgen'.
  - split; [done|]. simpl. by rewrite (get_run h this key' m obj' keySeq').
  - apply Forall_cons in Hws as [[Hw Hgw] Hws].
    rewrite !fmap_cons. cbn [setEach writeArgs].
    destruct (heap_after_set h this (write_loc w) m (write_key w) (write_seq w)
                Hthis Hw Hgw (write_value w)) as [Hm1 Ho1].
    erewrite bind_run by (by eapply set_run).
    rewrite (set_run h this (write_loc w) m _ _ Hthis Hw Hgw) in Hm1, Ho1.
    cbn [snd] in Hm1, Ho1. set (h1 := <[this:=_]> h) in *.
    assert (forall l o, h !! l = Some (ObjectCell o) -> h1 !! l = Some (ObjectCell o))
      as Hobj.
    { intros l o Hl. rewrite Ho1; [done|]. intros ->. congruence. }
    destruct (IH h1 _ Hm1) as [Hrun Hget]; [|by apply Hobj|exact Hgen'|].
    { eapply Forall_impl; [exact Hws|]. intros w' [Hw' Hg']. split; [|done].
      by apply Hobj. }
    split; [exact Hrun|]. rewrite Hget. cbn [values lastWrite writePath].
    destruct (lastWrite (writePath <$> ws) (stepsOf obj' keySeq')); [done|].
    rewrite slotAt_rootAfterSet.
    destruct (decide (stepsOf obj' keySeq' = _)) as [Heq|Hne].
    + by rewrite decide_True.
    + by rewrite decide_False.
Qed.

Lemma setEach_last_write_wins_witness :
  (CMap.get 0%nat 1%nat
     (setEach 0%nat [(1%nat, num 1); (3%nat, num 2); (2%nat, num 3)] testHeap).2).1
  = Normal (num 3).
Proof.
  pose proof (setEach_last_write_wins
                [mkWrite 1%nat key_a1b2 [PString "a"; PString "b"] (num 1);
                 mkWrite 3%nat key_a1b3 [PString "a"; PString "b"] (num 2);
                 mkWrite 2%nat key_b2a1 [PString "a"; PString "b"] (num 3)]
                testHeap 0%nat (mkCMap asValues newNode) 1%nat key_a1b2
                [PString "a"; PString "b"] eq_refl) as H.
  destruct H as [_ H]; [|reflexivity|reflexivity|exact H].
  repeat constructor.
Defined.

Lemma setChild_setChild (node : Node) (s : Step) (c c' : Node) :
  setChild (setChild node s c) s c' = setChild node s c'.
Proof.
  unfold setChild. cbn [next value from_option id].
  rewrite Map_get_set_eq. cbn [from_option id]. by rewrite !Map_set_set.
Qed.

Lemma rootAfterSet_cons (key : JSObject) (k : PropertyKey)
  (ks : list PropertyKey) (v : JSValue) (root : Node) :
  let s := (k, getProp key k) in
  rootAfterSet key (k :: ks) v root
  = setChild root s (rootAfterSet key ks v (default newNode (child root s))).
Proof.
  intros s. unfold rootAfterSet. rewrite makeNodeLoop_cons.
  change (stepsOf key (k :: ks)) with (s :: stepsOf key ks). fold s.
  rewrite assignValue_cons, child_setChild, decide_True by done.
  apply setChild_setChild.
Qed.

Lemma rootAfterSet_overwrite (key : JSObject) (keySeq : list PropertyKey)
  (v1 v2 : JSValue) (root : Node) :
  rootAfterSet key keySeq v2 (rootAfterSet key keySeq v1 root)
  = rootAfterSet key keySeq v2 root.
Proof.
  revert root. induction keySeq as [|k ks IH]; intros root; [done|].
  rewrite !rootAfterSet_cons. cbv zeta.
  rewrite child_setChild, decide_True by done. cbn [from_option id].
  by rewrite setChild_setChild, IH.
Qed.

(** X9.  A second [set] on a key replaces the first altogether: the two
    calls [set(k, v1)], [set(k, v2)] return what the call [set(k, v2)]
    alone returns and leave the heap, and with it the whole trie, as that
    call alone leaves it.  The two calls may be given two objects with
    the same fields in the same order. *)
Theorem set_twice_is_second_set (h : Heap) (this k1 k2 : loc) (m : CMapState)
  (obj : JSObject) (keySeq : list PropertyKey) (v1 v2 : JSValue)
  (Hthis : h !! this = Some (CMapCell m))
  (Hk1 : h !! k1 = Some (ObjectCell obj))
  (Hk2 : h !! k2 = Some (ObjectCell obj))
  (Hgen : keyGenerator m obj = Normal keySeq) :
  (_ ← CMap.set this k1 v1; CMap.set this k2 v2) h = CMap.set this k2 v2 h.
Proof.
  destruct (heap_after_set h this k1 m obj keySeq Hthis Hk1 Hgen v1) as [Hm1 Ho1].
  erewrite bind_run by (by eapply set_run).
  rewrite (set_run h this k1 m obj keySeq Hthis Hk1 Hgen) in Hm1, Ho1.
  cbn [snd] in Hm1, Ho1.
  assert (k2 <> this) as Hne by (intros ->; congruence).
  rewrite (set_run _ this k2 _ obj keySeq Hm1); [|by rewrite Ho1|exact Hgen].
  rewrite (set_run h this k2 m obj keySeq Hthis Hk2 Hgen).
  cbn [keyGenerator values].
  by rewrite insert_insert_eq, rootAfterSet_overwrite.
Qed.

Lemma set_twice_is_second_set_witness :
  (_ ← CMap.set 0%nat 1%nat (num 1); CMap.set 0%nat 1%nat (num 11)) testHeap
  = CMap.set 0%nat 1%nat (num 11) testHeap.
Proof.
  exact (set_twice_is_second_set testHeap 0%nat 1%nat 1%nat
           (mkCMap asValues newNode) key_a1b2 [PString "a"; PString "b"]
           (num 1) (num 11) eq_refl eq_refl eq_refl eq_refl).
Defined.

Lemma set_heap_objects (h : Heap) (this key : loc) (v : JSValue) (l : loc)
  (obj : JSObject) :
  h !! l = Some (ObjectCell obj) ->
  (CMap.set this key v h).2 !! l = Some (ObjectCell obj).
Proof.
  intros Hl. destruct (decide (l = this)) as [->|Hne].
  - unfold CMap.set, CMap.makeNode, mbind, M_bind, readCMap. by rewrite Hl.
  - by rewrite set_heap_other.
Qed.

(** X10.  Two maps share nothing: a [set] on one map changes no [get] of
    another map. *)
Theorem maps_are_independent (h : Heap) (this other key key' : loc)
  (v : JSValue) (obj' : JSObject)
  (Hne : this <> other)
  (Hkey' : h !! key' = Some (ObjectCell obj')) :
  (CMap.get other key' (CMap.set this key v h).2).1 = (CMap.get other key' h).1.
Proof.
  apply get_ext.
  - apply set_heap_other. congruence.
  - rewrite Hkey'. by apply set_heap_objects.
Qed.

Lemma maps_are_independent_witness :
  (CMap.get 50%nat 1%nat (CMap.set 0%nat 1%nat (num 5) testHeap).2).1
  = (CMap.get 50%nat 1%nat testHeap).1.
Proof.
  apply (maps_are_independent testHeap 0%nat 50%nat 1%nat 1%nat (num 5) key_a1b2).
  - discriminate.
  - reflexivity.
Defined.

(** X11.  An error of the strategy is the error of the method, and
    nothing is written: when the strategy throws on being called with the
    key, [findNode], [makeNode], [get] and [set] throw the same error and
    leave the heap as it was. *)
Theorem strategy_error_propagates (h : Heap) (this key : loc) (m : CMapState)
  (obj : JSObject) (e : string) (v : JSValue)
  (Hthis : h !! this = Some (CMapCell m))
  (Hkey : h !! key = Some (ObjectCell obj))
  (Hgen : keyGenerator m obj = Throw e) :
  CMap.findNode this key h = (Throw e, h)
  /\ CMap.makeNode this key h = (Throw e, h)
  /\ CMap.get this key h = (Throw e, h)
  /\ CMap.set this key v h = (Throw e, h).
Proof.
  unfold CMap.get, CMap.set, CMap.findNode, CMap.makeNode, mbind, M_bind,
    readCMap, readObject, liftCompletion.
  by rewrite Hthis, Hkey, Hgen.
Qed.

Lemma strategy_error_propagates_witness :
  let h : Heap := {[ 0%nat := CMapCell (mkCMap (fun _ => Throw "no keys") newNode);
                     1%nat := ObjectCell key_a1 ]} in
  CMap.get 0%nat 1%nat h = (Throw "no keys", h)
  /\ CMap.set 0%nat 1%nat (num 1) h = (Throw "no keys", h).
Proof.
  intros h.
  destruct (strategy_error_propagates h 0%nat 1%nat
              (mkCMap (fun _ => Throw "no keys") newNode) key_a1 "no keys" (num 1)
              eq_refl eq_refl eq_refl) as (_ & _ & Hget & Hset).
  by split.
Defined.

Lemma makeNode_run (h : Heap) (this key : loc) (m : CMapState) (obj : JSObject)
  (keySeq : list PropertyKey) :
  h !! this = Some (CMapCell m) -> h !! key = Some (ObjectCell obj) ->
  keyGenerator m obj = Normal keySeq ->
  CMap.makeNode this key h
  = (Normal (stepsOf obj keySeq),
     <[this := CMapCell (mkCMap (keyGenerator m)
                           (makeNodeLoop obj keySeq (values m)))]> h).
Proof.
  intros Hthis Hkey Hgen.
  unfold CMap.makeNode, mbind, M_bind, readCMap, readObject, liftCompletion,
    writeValues.
  by rewrite Hthis, Hkey, Hgen, Hthis.
Qed.

Lemma walk_makeNodeLoop (key : JSObject) (keySeq : list PropertyKey) (root : Node) :
  exists node, walk (stepsOf key keySeq) (makeNodeLoop key keySeq root) = Some node.
Proof.
  revert root. induction keySeq as [|k ks IH]; intros root; [by eexists|].
  rewrite makeNodeLoop_cons.
  change (stepsOf key (k :: ks)) with ((k, getProp key k) :: stepsOf key ks).
  cbn [walk]. rewrite child_setChild, decide_True by done. apply IH.
Qed.

Lemma makeNodeLoop_idempotent (key : JSObject) (keySeq : list PropertyKey)
  (root : Node) :
  makeNodeLoop key keySeq (makeNodeLoop key keySeq root)
  = makeNodeLoop key keySeq root.
Proof.
  revert root. induction keySeq as [|k ks IH]; intros root; [done|].
  rewrite !makeNodeLoop_cons. cbv zeta.
  rewrite child_setChild, decide_True by done. cbn [from_option id].
  by rewrite setChild_setChild, IH.
Qed.

(** X12.  [makeNode] makes the nodes of a key and nothing else: it
    returns normally, after it [findNode] of the same key finds a node
    (it does not return null), the value slot of that node is what the
    slot of the key was before, no [get] returns anything else than
    before, and a second [makeNode] of the key changes nothing. *)
Theorem makeNode_then_findNode (h : Heap) (this key : loc) (m : CMapState)
  (obj : JSObject) (keySeq : list PropertyKey)
  (Hthis : h !! this = Some (CMapCell m))
  (Hkey : h !! key = Some (ObjectCell obj))
  (Hgen : keyGenerator m obj = Normal keySeq) :
  let h' := (CMap.makeNode this key h).2 in
  (exists ref, (CMap.makeNode this key h).1 = Normal ref)
  /\ (exists node, (CMap.findNode this key h').1 = Normal (Some node)
                   /\ value node = slotAt (stepsOf obj keySeq) (values m))
  /\ (forall key' obj' keySeq',
        h !! key' = Some (ObjectCell obj') ->
        keyGenerator m obj' = Normal keySeq' ->
        (CMap.get this key' h').1 = (CMap.get this key' h).1)
  /\ (CMap.makeNode this key h').2 = h'.
Proof.
  intros h'. unfold h'. rewrite (makeNode_run h this key m obj keySeq) by done.
  cbn [fst snd]. set (m1 := mkCMap _ _). set (h1 := <[this:=_]> h).
  assert (h1 !! this = Some (CMapCell m1)) as Hm1 by apply lookup_insert_eq.
  assert (forall l o, h !! l = Some (ObjectCell o) -> h1 !! l = Some (ObjectCell o))
    as Hobj.
  { intros l o Hl. unfold h1. rewrite lookup_insert_ne; [done|].
    intros <-. congruence. }
  split; [by eexists|]. split; [|split].
  - destruct (walk_makeNodeLoop obj keySeq (values m)) as [node Hwalk].
    exists node. rewrite (findNode_run h1 this key m1 obj keySeq Hm1 (Hobj _ _ Hkey) Hgen).
    cbn [fst]. unfold m1. cbn [values]. split; [by rewrite Hwalk|].
    rewrite <- (slotAt_makeNodeLoop obj keySeq (values m)).
    unfold slotAt. by rewrite Hwalk.
  - intros key' obj' keySeq' Hkey' Hgen'.
    rewrite (get_run h1 this key' m1 obj' keySeq' Hm1 (Hobj _ _ Hkey') Hgen').
    rewrite (get_run h this key' m obj' keySeq' Hthis Hkey' Hgen').
    unfold m1. cbn [fst values]. by rewrite slotAt_makeNodeLoop.
  - rewrite (makeNode_run h1 this key m1 obj keySeq Hm1 (Hobj _ _ Hkey) Hgen).
    cbn [snd]. unfold h1, m1. cbn [keyGenerator values].
    by rewrite insert_insert_eq, makeNodeLoop_idempotent.
Qed.

Lemma makeNode_then_findNode_witness :
  let h' := (CMap.makeNode 0%nat 1%nat testHeap).2 in
  (exists node, (CMap.findNode 0%nat 1%nat h').1 = Normal (Some node)
                /\ value node = notPresent)
  /\ (CMap.get 0%nat 1%nat h').1 = Normal VUndefined.
Proof.
  intros h'.
  destruct (makeNode_then_findNode testHeap 0%nat 1%nat (mkCMap asValues newNode)
              key_a1b2 [PString "a"; PString "b"] eq_refl eq_refl eq_refl)
    as (_ & (node & Hfind & Hvalue) & Hget & _).
  split.
  - exists node. split; [exact Hfind|]. rewrite Hvalue. reflexivity.
  - fold h' in Hget.
    rewrite (Hget 1%nat key_a1b2 [PString "a"; PString "b"] eq_refl eq_refl).
    reflexivity.
Defined.

Lemma stepsOf_selectors (key : JSObject) (keySeq : list PropertyKey) :
  (stepsOf key keySeq).*1 = keySeq.
Proof.
  unfold stepsOf. rewrite <- list_fmap_compose.
  induction keySeq as [|k ks IH]; [done|]. rewrite fmap_cons. by rewrite IH.
Qed.

(** X13.  The insertion-order strategy does not give deep equality: on a
    map made with [asObjects], two keys for which [asObjects] yields two
    different sequences (the same fields written in another order, say)
    are two different keys, and a [set] on one changes no [get] of the
    other. *)
Theorem insertion_order_keys_differ (h : Heap) (this k1 k2 : loc)
  (m : CMapState) (o1 o2 : JSObject) (v : JSValue)
  (Hthis : h !! this = Some (CMapCell m))
  (Hgen : keyGenerator m = asObjectsGenerator)
  (Hk1 : h !! k1 = Some (ObjectCell o1))
  (Hk2 : h !! k2 = Some (ObjectCell o2))
  (Hdiff : asObjects o1 <> asObjects o2) :
  (CMap.get this k2 (CMap.set this k1 v h).2).1 = (CMap.get this k2 h).1.
Proof.
  assert (keyGenerator m o1 = Normal (asObjects o1)) as G1 by (by rewrite Hgen).
  assert (keyGenerator m o2 = Normal (asObjects o2)) as G2 by (by rewrite Hgen).
  rewrite (get_after_set h this k1 m o1 _ Hthis Hk1 G1 v k2 o2 _ Hk2 G2).
  rewrite (get_run h this k2 m o2 _ Hthis Hk2 G2).
  rewrite decide_False; [done|].
  intros Heq. apply Hdiff.
  apply (f_equal (fmap fst)) in Heq. by rewrite !stepsOf_selectors in Heq.
Qed.

Lemma insertion_order_keys_differ_witness :
  (CMap.get 50%nat 2%nat (CMap.set 50%nat 1%nat (num 12) testHeap).2).1
  = (CMap.get 50%nat 2%nat testHeap).1.
Proof.
  apply (insertion_order_keys_differ testHeap 50%nat 1%nat 2%nat
           (mkCMap asObjectsGenerator newNode) key_a1b2 key_b2a1);
    try reflexivity.
  by vm_compute.
Defined.
